(** * ia_ebooks: Internet Archive paging, CLIO identifiers and MARC retrieval

    A shallow embedding of [ia_ebooks.py] and the properties its
    description states about it.

    Conventions of the embedding.
    - A Python [str] is a [text]: the list of its characters.  Characters
      are the code points below 256, where the class [\d] of the [re]
      module is exactly [0-9].
    - A Python [int] is a [Z].
    - A search document (a [dict] decoded from JSON whose fields hold text)
      is a [gmap string text]; [doc[k]] raises [KeyError] on a missing key
      and [doc.get(k, d)] does not.  [Decoded] has the documents whose
      fields hold any decoded value.
    - A call that may raise returns a [result].
    - The two remote services are collaborators: the search service is a
      function from the request parameters to a response, the catalogue a
      function from the number of the request to a response.  What the
      program does to the outside world (requests, sleeps, lines printed)
      is recorded in explicit traces. *)

From Stdlib Require Import ZArith Lia Ascii String List Bool.
From stdpp Require Import base option list strings gmap.

Local Open Scope Z_scope.

(** ** Text *)

Abbreviation text := (list ascii).

Definition str (s : string) : text := String.list_ascii_of_string s.

Definition newline : ascii := "010"%char.
Definition dquote : ascii := "034"%char.

(** ** Exceptions *)

Inductive exn : Type :=
| KeyError (key : string)
| ValueError
| RecordLengthInvalid
| RecursionError
| TypeError
| OverflowError
| OtherError.

Inductive result (A : Type) : Type :=
| Ok (a : A)
| Raise (e : exn).
Arguments Ok {A} a.
Arguments Raise {A} e.

(** ** Regular expressions

    The fragment of Python's [re] syntax that the two patterns of the
    program use, with one capturing group. *)

Module Re.

Inductive re : Type :=
| Eps
| Char (c : ascii)
| Any
| Class (p : ascii -> bool)
| Plus (r : re)
| Group (r : re)
| Cat (r1 r2 : re)
| Bol
| Eol.

Fixpoint lit (l : text) : re :=
  match l with
  | [] => Eps
  | c :: l' => Cat (Char c) (lit l')
  end.

Fixpoint cats (rs : list re) : re :=
  match rs with
  | [] => Eps
  | r :: rs' => Cat r (cats rs')
  end.

(** The group captured by a later part replaces an earlier capture. *)
Definition later (g2 g1 : option text) : option text :=
  match g2 with
  | Some _ => g2
  | None => g1
  end.

(** [re_match r pre s rest g]: in the subject [pre ++ s ++ rest], the
    pattern [r] can consume [s] after [pre], capturing [g].  [Any] is [.]
    without DOTALL; [Bol] is [^] and [Eol] is [$] without MULTILINE: [$]
    holds at the end of the subject and before a newline that ends it. *)
Inductive re_match : re -> text -> text -> text -> option text -> Prop :=
| m_eps pre rest : re_match Eps pre [] rest None
| m_char c pre rest : re_match (Char c) pre [c] rest None
| m_any c pre rest : c <> newline -> re_match Any pre [c] rest None
| m_class p c pre rest : p c = true -> re_match (Class p) pre [c] rest None
| m_bol rest : re_match Bol [] [] rest None
| m_eol pre rest : rest = [] \/ rest = [newline] -> re_match Eol pre [] rest None
| m_group r pre s rest g :
    re_match r pre s rest g -> re_match (Group r) pre s rest (Some s)
| m_cat r1 r2 pre s1 s2 rest g1 g2 :
    re_match r1 pre s1 (s2 ++ rest) g1 ->
    re_match r2 (pre ++ s1) s2 rest g2 ->
    re_match (Cat r1 r2) pre (s1 ++ s2) rest (later g2 g1)
| m_plus_one r pre s rest g :
    re_match r pre s rest g -> re_match (Plus r) pre s rest g
| m_plus_more r pre s1 s2 rest g1 g2 :
    re_match r pre s1 (s2 ++ rest) g1 ->
    re_match (Plus r) (pre ++ s1) s2 rest g2 ->
    re_match (Plus r) pre (s1 ++ s2) rest (later g2 g1).

(** [pattern.match(s)] can succeed with group 1 equal to [g]. *)
Definition matches (r : re) (s g : text) : Prop :=
  exists consumed rest,
    s = consumed ++ rest /\ re_match r [] consumed rest (Some g).

(** [pattern.search(s)] can find a match that starts after [pre]. *)
Definition matches_at (r : re) (pre s g : text) : Prop :=
  exists consumed rest,
    s = consumed ++ rest /\ re_match r pre consumed rest (Some g).

(** [pattern.search(s)] returns the leftmost match. *)
Definition search_finds (r : re) (s g : text) : Prop :=
  exists pre tl,
    s = pre ++ tl /\ matches_at r pre tl g /\
    forall pre' tl' g', s = pre' ++ tl' -> (length pre' < length pre)%nat ->
                        ~ matches_at r pre' tl' g'.

End Re.

(** ** Character classes *)

Definition in_range (lo hi c : ascii) : bool :=
  (N_of_ascii lo <=? N_of_ascii c)%N && (N_of_ascii c <=? N_of_ascii hi)%N.

(** [[0-9A-Za-z]] *)
Definition is_alnum (c : ascii) : bool :=
  in_range "0" "9" c || in_range "A" "Z" c || in_range "a" "z" c.

(** [\d] *)
Definition is_digit (c : ascii) : bool := in_range "0" "9" c.

(** [[_]] *)
Definition is_underscore (c : ascii) : bool := Ascii.eqb c "_".

(** ** The two patterns *)

(** [re.compile('^ldpd[_]+([0-9A-Za-z]+)[_]+\\d+$')] *)
Definition CLIO_DERIVED_ID : Re.re :=
  Re.cats [ Re.Bol; Re.lit (str "ldpd"); Re.Plus (Re.Class is_underscore);
            Re.Group (Re.Plus (Re.Class is_alnum));
            Re.Plus (Re.Class is_underscore); Re.Plus (Re.Class is_digit);
            Re.Eol ].

(** [re.compile('"http:\\/\\/clio.columbia.edu\\/catalog\\/([0-9A-Za-z]+)"')]:
    the pattern starts and ends with a double quote, and its two dots are
    not escaped. *)
Definition CLIO_LINK : Re.re :=
  Re.cats [ Re.Char dquote; Re.lit (str "http://clio"); Re.Any;
            Re.lit (str "columbia"); Re.Any; Re.lit (str "edu/catalog/");
            Re.Group (Re.Plus (Re.Class is_alnum)); Re.Char dquote ].

(** ** Matching the two patterns

    The matchers below run the patterns the way the backtracking engine
    does: every [+] is greedy, and since what follows each [+] cannot start
    with a character of its class, the longest run is the only one that can
    lead to a match. *)

Fixpoint span (p : ascii -> bool) (s : text) : text * text :=
  match s with
  | c :: s' =>
      if p c then let '(a, b) := span p s' in (c :: a, b) else ([], s)
  | [] => ([], [])
  end.

Fixpoint strip_prefix (l s : text) : option text :=
  match l, s with
  | [], _ => Some s
  | c :: l', d :: s' => if Ascii.eqb c d then strip_prefix l' s' else None
  | _ :: _, [] => None
  end.

(** One run of [p+]: the run and what follows it. *)
Definition plus_run (p : ascii -> bool) (s : text) : option (text * text) :=
  match span p s with
  | ([], _) => None
  | (run, rest) => Some (run, rest)
  end.

(** [.]: one character that is not a newline. *)
Definition any_char (s : text) : option text :=
  match s with
  | c :: s' => if Ascii.eqb c newline then None else Some s'
  | [] => None
  end.

(** [$] *)
Definition at_eol (s : text) : bool :=
  match s with
  | [] => true
  | [c] => Ascii.eqb c newline
  | _ => false
  end.

(** [CLIO_DERIVED_ID.match(s)], as [Some (m.group(1))] or [None]. *)
Definition CLIO_DERIVED_ID_match (s : text) : option text :=
  s1 ← strip_prefix (str "ldpd") s;
  '(_, s2) ← plus_run is_underscore s1;
  '(seg, s3) ← plus_run is_alnum s2;
  '(_, s4) ← plus_run is_underscore s3;
  '(_, s5) ← plus_run is_digit s4;
  if at_eol s5 then Some seg else None.

(** An attempt of [CLIO_LINK] at the start of [s]. *)
Definition CLIO_LINK_here (s : text) : option text :=
  s1 ← strip_prefix (dquote :: str "http://clio") s;
  s2 ← any_char s1;
  s3 ← strip_prefix (str "columbia") s2;
  s4 ← any_char s3;
  s5 ← strip_prefix (str "edu/catalog/") s4;
  '(seg, s6) ← plus_run is_alnum s5;
  _ ← strip_prefix [dquote] s6;
  Some seg.

(** [CLIO_LINK.search(s)]: the attempts go from left to right. *)
Fixpoint CLIO_LINK_search (s : text) : option text :=
  match CLIO_LINK_here s with
  | Some g => Some g
  | None =>
      match s with
      | [] => None
      | _ :: s' => CLIO_LINK_search s'
      end
  end.

(** ** [clio_id] *)

Definition clio_id (doc : gmap string text) : result (option text) :=
  match doc !! "identifier" with
  | None => Raise (KeyError "identifier")
  | Some identifier =>
      let id_match := CLIO_DERIVED_ID_match identifier in
      let bib_id := match id_match with Some g => Some g | None => None end in
      match bib_id with
      | None =>
          let link_match :=
            CLIO_LINK_search (default [] (doc !! "stripped_tags")) in
          Ok (match link_match with Some g => Some g | None => bib_id end)
      | Some _ => Ok bib_id
      end
  end.


(** ** Shapes of the subjects the patterns match *)

(** What may follow a greedy run of [p]: nothing, or a character outside [p]. *)
Definition stops (p : ascii -> bool) (s : text) : Prop :=
  match s with
  | [] => True
  | c :: _ => p c = false
  end.

(** The subjects that [CLIO_DERIVED_ID] matches, and the group it captures. *)
Definition derived_shape (s g : text) : Prop :=
  exists us1 us2 num tl,
    s = str "ldpd" ++ us1 ++ g ++ us2 ++ num ++ tl /\
    us1 <> [] /\ Forall (fun c => is_underscore c = true) us1 /\
    g <> [] /\ Forall (fun c => is_alnum c = true) g /\
    us2 <> [] /\ Forall (fun c => is_underscore c = true) us2 /\
    num <> [] /\ Forall (fun c => is_digit c = true) num /\
    (tl = [] \/ tl = [newline]).

(** The subjects that [CLIO_LINK] matches at their start. *)
Definition link_shape (s g : text) : Prop :=
  exists x y tl,
    s = (dquote :: str "http://clio") ++ x :: str "columbia" ++ y ::
        str "edu/catalog/" ++ g ++ dquote :: tl /\
    x <> newline /\ y <> newline /\
    g <> [] /\ Forall (fun c => is_alnum c = true) g.

(** The quoted catalogue link that [CLIO_LINK] is written for. *)
Definition quoted_link (id : text) : text :=
  dquote :: str "http://clio.columbia.edu/catalog/" ++ id ++ [dquote].

(** A document whose identifier is not structured and whose [stripped_tags]
    embed a catalogue link with the scheme [https]. *)
Definition doc_https : gmap string text :=
  {[ "identifier" := str "plain-item";
     "stripped_tags" :=
       str "<a href=" ++ dquote :: str "https://clio.columbia.edu/catalog/9999" ++
       dquote :: str ">" ]}.

(** ** The paged search iterator [IA] *)

Module IA.

(** [response['response']] of the search service: the total number of
    matches and the documents of the requested page. *)
Record response (D : Type) : Type := {
  numFound : Z;
  found_docs : list D
}.
Arguments numFound {D} _.
Arguments found_docs {D} _.

(** The fields of an [IA] object: [params['rows']], [params['page']],
    [docs] and [more] (the query and the other parameters never change). *)
Record t (D : Type) : Type := {
  rows : Z;
  page : Z;
  docs : list D;
  more : bool
}.
Arguments rows {D} _.
Arguments page {D} _.
Arguments docs {D} _.
Arguments more {D} _.

(** The requests sent so far, each with its [rows] and [page]. *)
Abbreviation requests := (list (Z * Z)).

Section Iterator.
Context {D : Type}.

(** The search service: the response to a request for [rows] and [page]. *)
Variable search : Z -> Z -> response D.

Definition __init__ (page_size page : Z) : t D :=
  {| rows := page_size; page := page - 1; docs := []; more := true |}.

Definition __fetch_next_page__ (self : t D) (sent : requests) : t D * requests :=
  let page' := page self + 1 in
  let response := search (rows self) page' in
  ({| rows := rows self;
      page := page';
      docs := found_docs response;
      more := numFound response >? rows self * page' |},
   sent ++ [(rows self, page')]).

Definition __iter__ (self : t D) : t D :=
  {| rows := rows self; page := page self; docs := []; more := true |}.

(** [None] stands for [raise StopIteration]. *)
Definition __next__ (self : t D) (sent : requests) : option D * t D * requests :=
  let '(self, sent) :=
    if (length (docs self) =? 0)%nat && more self
    then __fetch_next_page__ self sent
    else (self, sent) in
  match docs self with
  | [] => (None, self, sent)
  | d :: ds =>
      (Some d,
       {| rows := rows self; page := page self; docs := ds; more := more self |},
       sent)
  end.

(** [next] until [StopIteration], at most [fuel] times: the items, the
    final object and the requests sent; [None] when [fuel] calls did not
    reach [StopIteration]. *)
Fixpoint drain (fuel : nat) (self : t D) (sent : requests)
  : option (list D * t D * requests) :=
  match fuel with
  | O => None
  | S fuel' =>
      match __next__ self sent with
      | (None, self', sent') => Some ([], self', sent')
      | (Some d, self', sent') =>
          match drain fuel' self' sent' with
          | Some (ds, self'', sent'') => Some (d :: ds, self'', sent'')
          | None => None
          end
      end
  end.

(** One traversal, [for doc in self: ...]: [iter(self)], then [next]. *)
Definition traverse (fuel : nat) (self : t D) (sent : requests)
  : option (list D * t D * requests) :=
  drain fuel (__iter__ self) sent.

End Iterator.

(** A search service that holds [items] in ranking order and serves page
    [page] of size [rows]: at most [rows] of the items that remain. *)
Definition archive {D : Type} (items : list D) (rows page : Z) : response D :=
  {| numFound := Z.of_nat (length items);
     found_docs := take (Z.to_nat rows) (drop (Z.to_nat (rows * (page - 1))) items) |}.

(** The items of [items] that an iterator over [archive items] has still
    to fetch. *)
Definition pending {D : Type} (items : list D) (self : t D) : list D :=
  if more self
  then drop (Z.to_nat (rows self * page self)) items
  else [].

End IA.

(** ** Catalogue records: [fetch_clio] *)

Module Clio.

(** Modelled from the spec: [pymarc.Record] is not part of this
    repository.  A bibliographic record is the list of its fields, tag and
    value, and the placeholder [Record()] has no field. *)
Record MarcRecord : Type := { fields : list (text * text) }.

Definition Record_new : MarcRecord := {| fields := [] |}.

(** What the program reads of the response to one [requests.get]:
    [status_code]; the outcome of [next(MARCReader(BytesIO(content)))], a
    record or the exception raised; and the outcome of
    [int(headers['Retry-After'])], an integer, [KeyError] when the header
    is missing, [ValueError] when it is not an integer. *)
Record response : Type := {
  status_code : Z;
  marc : result MarcRecord;
  retry_after_header : result Z
}.

(** The lines written to [stderr]. *)
Inductive log_line : Type :=
| RateLimiting (retry_after : Z)   (* "CLIO rate limiting, waiting %s: %s" *)
| Headers                          (* json.dumps(dict(response.headers)) *)
| RetryingOnlyOnce.                (* "Collegially retrying only once: %s" *)

(** What a call does to the outside world, in order. *)
Inductive event : Type :=
| Sleep (seconds : Z)
| Get (identifier : text)
| Log (line : log_line).

Definition is_get (e : event) : bool :=
  match e with Get _ => true | _ => false end.

Definition is_sleep (e : event) : bool :=
  match e with Sleep _ => true | _ => false end.

(** The number of requests sent. *)
Definition gets (w : list event) : nat := length (List.filter is_get w).

(** The pauses taken. *)
Definition sleeps (w : list event) : list Z :=
  omap (fun e => match e with Sleep s => Some s | _ => None end) w.

(** The longest whole number of seconds that the interpreter's clock, a
    signed 64-bit count of nanoseconds, can hold. *)
Definition sleep_max : Z := 9223372036.

(** A delay far below [sleep_max]: a billion seconds. *)
Definition long_delay : Z := 1000000000.

(** [time.sleep] first converts the length to the clock's unit and raises
    [OverflowError] when it does not fit, then raises [ValueError] on a
    negative length.  (Close to [sleep_max] the pause itself can fail in
    the operating system, depending on how long the machine has run; what
    is proved below of a call that pauses takes delays under
    [long_delay].) *)
Definition sleep (seconds : Z) (w : list event) : result (list event) :=
  if (seconds <? - sleep_max) || (sleep_max <? seconds) then Raise OverflowError
  else if seconds <? 0 then Raise ValueError
  else Ok (w ++ [Sleep seconds]).

(** [except (ValueError, RecordLengthInvalid)] *)
Definition caught (e : exn) : bool :=
  match e with
  | ValueError | RecordLengthInvalid => true
  | _ => false
  end.

Section Fetch.

(** The catalogue: its response to the request number [n], from 0. *)
Variable catalogue : nat -> response.

(** [fetch_clio(identifier, retry_after)] in a world [w], with [depth]
    frames left on the interpreter's stack: the function calls itself, and
    a call that finds no frame raises [RecursionError]. *)
Fixpoint fetch_clio (depth : nat) (identifier : text) (retry_after : Z)
    (w : list event) : result MarcRecord * list event :=
  match depth with
  | O => (Raise RecursionError, w)
  | S depth' =>
      match (if retry_after =? -1 then Ok w else sleep retry_after w) with
      | Raise e => (Raise e, w)
      | Ok w =>
          let response := catalogue (gets w) in
          let w := w ++ [Get identifier] in
          match marc response with
          | Ok record => (Ok record, w)
          | Raise e =>
              if caught e then
                if (retry_after =? -1) && (status_code response =? 429) then
                  match retry_after_header response with
                  | Raise e' => (Raise e', w)
                  | Ok seconds =>
                      let retry_after := seconds + 1 in
                      let w := w ++ [Log (RateLimiting retry_after); Log Headers] in
                      fetch_clio depth' identifier retry_after w
                  end
                else (Ok Record_new, w ++ [Log RetryingOnlyOnce])
              else (Raise e, w)
          end
      end
  end.

End Fetch.

(** A catalogue that throttles every request, the body of its responses
    not a record, with the header [Retry-After: -2]. *)
Definition throttling (n : nat) : response :=
  {| status_code := 429; marc := Raise ValueError; retry_after_header := Ok (-2) |}.

(** A catalogue that throttles the first request with [Retry-After: s]
    and answers the next as [second]. *)
Definition throttle_once (s : Z) (second : response) (n : nat) : response :=
  match n with
  | O => {| status_code := 429; marc := Raise ValueError;
            retry_after_header := Ok s |}
  | _ => second
  end.

(** A catalogue that throttles the first request with [Retry-After: -2]
    and the second without a [Retry-After] header. *)
Definition throttled_twice : nat -> response :=
  throttle_once (-2)
    {| status_code := 429; marc := Raise ValueError;
       retry_after_header := Raise (KeyError "retry-after") |}.

End Clio.

(** ** [ia_links] *)

Definition ia_links (doc : gmap string text) : result (gmap string text) :=
  match doc !! "identifier" with
  | None => Raise (KeyError "identifier")
  | Some ia_id =>
      Ok {[ "thumbnail" := str "https://archive.org/services/img/" ++ ia_id;
            "poster" := str "https://archive.org/download/" ++ ia_id ++
                        str "/page/cover_medium.jpg";
            "pdf" := str "https://archive.org/download/" ++ ia_id ++ str "/" ++
                     ia_id ++ str ".pdf";
            "iframe" := str "https://archive.org/stream/" ++ ia_id ++
                        str "?ui=full&showNavbar=false" ]}
  end.

(** ** JSON texts (RFC 8259) *)

Module Json.

Definition is_ws (c : ascii) : bool :=
  match c with
  | " " | "009" | "010" | "013" => true
  | _ => false
  end%char.

Definition ws (s : text) : Prop := Forall (fun c => is_ws c = true) s.

Definition is_hex (c : ascii) : bool :=
  in_range "0" "9" c || in_range "A" "F" c || in_range "a" "f" c.

Definition digits (s : text) : Prop :=
  s <> [] /\ Forall (fun c => is_digit c = true) s.

Definition int_part (s : text) : Prop :=
  s = str "0" \/
  exists c t, s = c :: t /\ in_range "1" "9" c = true /\
              Forall (fun c => is_digit c = true) t.

Definition number (s : text) : Prop :=
  exists sign i frac e,
    s = sign ++ i ++ frac ++ e /\
    (sign = [] \/ sign = str "-") /\ int_part i /\
    (frac = [] \/ exists d, frac = "."%char :: d /\ digits d) /\
    (e = [] \/ exists x sg d,
        e = x :: sg ++ d /\ (x = "e"%char \/ x = "E"%char) /\
        (sg = [] \/ sg = str "+" \/ sg = str "-") /\ digits d).

Inductive chars : text -> Prop :=
| chars_nil : chars []
| chars_plain c s :
    c <> dquote -> c <> "\"%char -> (32 <= N_of_ascii c)%N -> chars s ->
    chars (c :: s)
| chars_escape c s :
    In c (str "\/bfnrt") \/ c = dquote -> chars s -> chars ("\"%char :: c :: s)
| chars_unicode h1 h2 h3 h4 s :
    Forall (fun c => is_hex c = true) [h1; h2; h3; h4] -> chars s ->
    chars ("\"%char :: "u"%char :: h1 :: h2 :: h3 :: h4 :: s).

Definition jstring (s : text) : Prop :=
  exists cs, s = dquote :: cs ++ [dquote] /\ chars cs.

Inductive value : text -> Prop :=
| v_null : value (str "null")
| v_true : value (str "true")
| v_false : value (str "false")
| v_number s : number s -> value s
| v_string s : jstring s -> value s
| v_array_empty w : ws w -> value ("["%char :: w ++ str "]")
| v_array es : elements es -> value ("["%char :: es ++ str "]")
| v_object_empty w : ws w -> value ("{"%char :: w ++ str "}")
| v_object ms : members ms -> value ("{"%char :: ms ++ str "}")
with elements : text -> Prop :=
| e_last w1 v w2 : ws w1 -> value v -> ws w2 -> elements (w1 ++ v ++ w2)
| e_more w1 v w2 es :
    ws w1 -> value v -> ws w2 -> elements es ->
    elements (w1 ++ v ++ w2 ++ ","%char :: es)
with members : text -> Prop :=
| m_last w1 k w2 w3 v w4 :
    ws w1 -> jstring k -> ws w2 -> ws w3 -> value v -> ws w4 ->
    members (w1 ++ k ++ w2 ++ ":"%char :: w3 ++ v ++ w4)
| m_more w1 k w2 w3 v w4 ms :
    ws w1 -> jstring k -> ws w2 -> ws w3 -> value v -> ws w4 -> members ms ->
    members (w1 ++ k ++ w2 ++ ":"%char :: w3 ++ v ++ w4 ++ ","%char :: ms).

(** [JSON-text = ws value ws] *)
Definition json_text (s : text) : Prop :=
  exists w1 v w2, s = w1 ++ v ++ w2 /\ ws w1 /\ value v /\ ws w2.

End Json.

(** ** [dump_iterable] *)

Module Dump.

(** What [dump_iterable] does, in order: it prints a line, or it asks the
    iterator for its next element with [next(docs, None)]. *)
Inductive event : Type :=
| Out (line : text)
| Next.

Section Dump.
Context {A : Type}.

(** [json.dumps(doc, indent=2)] *)
Variable json_dumps : A -> text.

(** The iterator is the list of the elements it will yield; an element is
    a document, [Some d], or Python's [None].  [next(docs, None)] is
    [None] at the end and at an element [None] alike. *)
Definition next_or_none (docs : list (option A)) : option A * list (option A) :=
  match docs with
  | [] => (None, [])
  | doc :: docs' => (doc, docs')
  end.

(** [while doc is not None: print(','); print(...); doc = next(docs, None)],
    entered with [doc] and with [docs] left in the iterator. *)
Fixpoint while_loop (docs : list (option A)) (doc : option A) : list event :=
  match doc with
  | None => []
  | Some d =>
      Out (str ",") :: Out (json_dumps d) :: Next ::
      match docs with
      | [] => []
      | doc' :: docs' => while_loop docs' doc'
      end
  end.

Definition dump_iterable (docs : list (option A)) : list event :=
  Out (str "[") :: Next ::
  (let '(doc, docs) := next_or_none docs in
   match doc with
   | None => []
   | Some d =>
       Out (json_dumps d) :: Next ::
       (let '(doc, docs) := next_or_none docs in while_loop docs doc)
   end) ++
  [Out (str "]")].

End Dump.

(** The lines printed. *)
Definition lines (evs : list event) : list text :=
  omap (fun e => match e with Out l => Some l | Next => None end) evs.

(** The text written to [stdout]: [print] ends each line with a newline. *)
Definition stdout (evs : list event) : text :=
  concat (map (fun l => l ++ [newline]) (lines evs)).

End Dump.

(** ** Callers of the iterator protocol *)

Section IteratorCallers.
Context {D : Type}.
Variable search : Z -> Z -> IA.response D.

(** [n] calls of [next(self)], each caught: what each call returned
    ([None] for [StopIteration]), the object and the requests after the
    last. *)
Fixpoint next_times (n : nat) (self : IA.t D) (sent : IA.requests)
  : list (option D) * IA.t D * IA.requests :=
  match n with
  | O => ([], self, sent)
  | S n' =>
      let '(r, self', sent') := IA.__next__ search self sent in
      let '(rs, self'', sent'') := next_times n' self' sent' in
      (r :: rs, self'', sent'')
  end.

(** The objects that calls of [next] lead to. *)
Inductive next_reaches (self0 : IA.t D) : IA.t D -> Prop :=
| reaches_start : next_reaches self0 self0
| reaches_next self sent :
    next_reaches self0 self ->
    next_reaches self0 (snd (fst (IA.__next__ search self sent))).

End IteratorCallers.

(** ** [fetch_list] and [fetch_document] *)

Section EagerSearch.
Context {D : Type}.
Variable search : Z -> Z -> IA.response D.

(** The loop of [fetch_list], entered with the values of [page],
    [numFound] and [docs]; each test of the loop condition takes one unit
    of [fuel], and [None] means the fuel ran out before the loop ended. *)
Fixpoint fetch_list_loop (fuel : nat) (page_size page numFound : Z)
    (docs : list D) (sent : IA.requests) : option (list D * IA.requests) :=
  match fuel with
  | O => None
  | S fuel' =>
      if numFound >? page_size * page then
        let page := page + 1 in
        let response := search page_size page in
        fetch_list_loop fuel' page_size page (IA.numFound response)
          (docs ++ IA.found_docs response) (sent ++ [(page_size, page)])
      else Some (docs, sent)
  end.

Definition fetch_list (fuel : nat) (page_size : Z) : option (list D * IA.requests) :=
  fetch_list_loop fuel page_size 0 1 [] [].

(** What [fetch_document] does after its one request, for one row of
    page 1: it returns a document, returns [None], or raises [IndexError]
    at [docs[0]]. *)
Inductive document_outcome : Type :=
| ReturnsDocument (d : D)
| ReturnsNone
| RaisesIndexError.

Definition fetch_document : document_outcome * IA.requests :=
  let response := search 1 1 in
  (if IA.numFound response >? 0 then
     match IA.found_docs response with
     | d :: _ => ReturnsDocument d
     | [] => RaisesIndexError
     end
   else ReturnsNone,
   [(1, 1)]).

End EagerSearch.

Arguments ReturnsDocument {D} d.
Arguments ReturnsNone {D}.
Arguments RaisesIndexError {D}.

(** ** The commands that print a list *)

Module Commands.

Section Lazy.
Context {A : Type}.
Variable json_dumps : A -> text.

(** [dump_iterable] over a generator: an element is computed when
    [next(docs, None)] asks for it, and computing it may raise; the
    iterator is the list of those outcomes.  The result is what was done
    and the exception that ended the call, if any. *)
Fixpoint while_loop (docs : list (result (option A))) (doc : option A)
  : list Dump.event * option exn :=
  match doc with
  | None => ([], None)
  | Some d =>
      let evs := [Dump.Out (str ","); Dump.Out (json_dumps d); Dump.Next] in
      match docs with
      | [] => (evs, None)
      | Raise e :: _ => (evs, Some e)
      | Ok doc' :: docs' =>
          let '(evs', raised) := while_loop docs' doc' in (evs ++ evs', raised)
      end
  end.

Definition dump_iterable (docs : list (result (option A)))
  : list Dump.event * option exn :=
  let evs0 := [Dump.Out (str "["); Dump.Next] in
  match docs with
  | [] => (evs0 ++ [Dump.Out (str "]")], None)
  | Raise e :: _ => (evs0, Some e)
  | Ok None :: _ => (evs0 ++ [Dump.Out (str "]")], None)
  | Ok (Some d) :: docs =>
      let evs1 := evs0 ++ [Dump.Out (json_dumps d); Dump.Next] in
      match docs with
      | [] => (evs1 ++ [Dump.Out (str "]")], None)
      | Raise e :: _ => (evs1, Some e)
      | Ok doc :: docs =>
          match while_loop docs doc with
          | (evs, None) => (evs1 ++ evs ++ [Dump.Out (str "]")], None)
          | (evs, Some e) => (evs1 ++ evs, Some e)
          end
      end
  end.

End Lazy.



(** A value of the records that [list-ebooks] prints: a field of the
    search document, the dictionary of links, or a catalogue record
    ([as_dict()] of it). *)
Inductive field : Type :=
| FText (t : text)
| FLinks (links : gmap string text)
| FClio (record : Clio.MarcRecord).

(** [{**doc, 'links': ia_links(doc)}] *)
Definition ebook_record (doc : gmap string text) : result (gmap string field) :=
  match ia_links doc with
  | Raise e => Raise e
  | Ok links => Ok (<["links" := FLinks links]> (FText <$> doc))
  end.

(** [{'clio': fetch_clio(clio_id(doc)).as_dict(), **ia_links(doc), **doc}],
    given the record that [fetch_clio] returned: a later entry of the
    display replaces an earlier one with the same key. *)
Definition ebook_record_clio (record : Clio.MarcRecord) (doc : gmap string text)
  : result (gmap string field) :=
  match ia_links doc with
  | Raise e => Raise e
  | Ok links =>
      Ok ((FText <$> doc) ∪ (FText <$> links) ∪ {[ "clio" := FClio record ]})
  end.

End Commands.

(** The calls of [next(docs, None)] among the events of [dump_iterable]. *)
Definition is_next (e : Dump.event) : bool :=
  match e with Dump.Next => true | Dump.Out _ => false end.

(** ** The parameters of a search request *)

Module Params.

(** A value of the [params] dictionary: text or an integer. *)
Inductive param : Type :=
| PStr (t : text)
| PInt (z : Z).

(** ["%s:(%s)" % query] *)
Definition clause (query : text * text) : text :=
  fst query ++ str ":(" ++ snd query ++ str ")".

(** [sep.join(parts)] *)
Fixpoint join (sep : text) (parts : list text) : text :=
  match parts with
  | [] => []
  | p :: parts' =>
      match parts' with
      | [] => p
      | _ :: _ => p ++ sep ++ join sep parts'
      end
  end.

(** [' AND '.join(["%s:(%s)" % query for query in queries])] *)
Definition q_of (queries : list (text * text)) : text :=
  join (str " AND ") (map clause queries).

(** [params] of [query_internet_archive(queries, page_size, page)]. *)
Definition query_internet_archive (queries : list (text * text))
    (page_size page : Z) : gmap string param :=
  {[ "q" := PStr (q_of queries);
     "callback" := PStr [];
     "rows" := PInt page_size;
     "page" := PInt page;
     "output" := PStr (str "json");
     "sort[]" := PStr (str "__sort desc") ]}.

(** [self.params] after [IA.__init__(queries, page_size, page)]. *)
Definition IA_init (queries : list (text * text)) (page_size page : Z)
  : gmap string param :=
  {[ "q" := PStr (q_of queries);
     "callback" := PStr [];
     "rows" := PInt page_size;
     "output" := PStr (str "json");
     "sort[]" := PStr (str "__sort desc");
     "page" := PInt (page - 1) ]}.

(** [self.params.update({ 'page': (self.params['page'] + 1) })], the first
    statement of [__fetch_next_page__]; [None] when [params['page']] is
    missing or is no integer, where Python raises. *)
Definition IA_next_page (params : gmap string param) : option (gmap string param) :=
  match params !! "page" with
  | Some (PInt page) => Some (<["page" := PInt (page + 1)]> params)
  | _ => None
  end.

End Params.

(** ** Documents as [json.loads] decodes them *)

Module Decoded.

(** What [json.loads] can return, and so what a field of a document can
    hold. *)
Inductive value : Type :=
| Str (s : text)
| Int (z : Z)
| Float (literal : text)
| Bool (b : bool)
| PyNone
| List (items : list value)
| Dict (items : list (string * value)).

(** [pattern.match(x)] and [pattern.search(x)] raise [TypeError] unless
    [x] is a string. *)
Definition subject (v : value) : result text :=
  match v with
  | Str s => Ok s
  | _ => Raise TypeError
  end.

(** [clio_id] on a document whose fields hold any decoded value. *)
Definition clio_id (doc : gmap string value) : result (option text) :=
  match doc !! "identifier" with
  | None => Raise (KeyError "identifier")
  | Some identifier =>
      match subject identifier with
      | Raise e => Raise e
      | Ok identifier =>
          let id_match := CLIO_DERIVED_ID_match identifier in
          let bib_id := match id_match with Some g => Some g | None => None end in
          match bib_id with
          | None =>
              match subject (default (Str []) (doc !! "stripped_tags")) with
              | Raise e => Raise e
              | Ok tags =>
                  let link_match := CLIO_LINK_search tags in
                  Ok (match link_match with Some g => Some g | None => bib_id end)
              end
          | Some _ => Ok bib_id
          end
      end
  end.



End Decoded.

(** * Properties *)

(** ** The matchers compute the patterns *)

Section Matching.
Import Re.

Lemma match_cat_inv r1 r2 pre s rest g :
  re_match (Cat r1 r2) pre s rest g ->
  exists s1 s2 g1 g2,
    s = s1 ++ s2 /\ re_match r1 pre s1 (s2 ++ rest) g1 /\
    re_match r2 (pre ++ s1) s2 rest g2 /\ g = later g2 g1.
Proof. inversion 1; subst; eauto 10. Qed.

Lemma m_cat_end r1 r2 pre s rest g1 g2 :
  re_match r1 pre s rest g1 -> re_match r2 (pre ++ s) [] rest g2 ->
  re_match (Cat r1 r2) pre s rest (later g2 g1).
Proof.
  intros H1 H2. pose proof (m_cat r1 r2 pre s [] rest g1 g2 H1 H2) as H.
  now rewrite app_nil_r in H.
Qed.

Lemma match_eps_inv pre s rest g :
  re_match Eps pre s rest g -> s = [] /\ g = None.
Proof. inversion 1; auto. Qed.

Lemma match_char_inv c pre s rest g :
  re_match (Char c) pre s rest g -> s = [c] /\ g = None.
Proof. inversion 1; auto. Qed.

Lemma match_any_inv pre s rest g :
  re_match Any pre s rest g -> exists c, s = [c] /\ c <> newline /\ g = None.
Proof. inversion 1; eauto. Qed.

Lemma match_bol_inv pre s rest g :
  re_match Bol pre s rest g -> pre = [] /\ s = [] /\ g = None.
Proof. inversion 1; auto. Qed.

Lemma match_eol_inv pre s rest g :
  re_match Eol pre s rest g ->
  s = [] /\ g = None /\ (rest = [] \/ rest = [newline]).
Proof. inversion 1; auto. Qed.

Lemma match_group_inv r pre s rest g :
  re_match (Group r) pre s rest g ->
  g = Some s /\ exists g', re_match r pre s rest g'.
Proof. inversion 1; eauto. Qed.

Lemma match_lit l pre s rest g :
  re_match (lit l) pre s rest g <-> s = l /\ g = None.
Proof.
  revert pre s g. induction l as [|c l IH]; intros pre s g; simpl.
  - split.
    + inversion 1; auto.
    + intros [-> ->]. constructor.
  - split.
    + intros H. apply match_cat_inv in H as (s1 & s2 & g1 & g2 & -> & H1 & H2 & ->).
      inversion H1; subst. apply IH in H2 as [-> ->]. auto.
    + intros [-> ->].
      apply (m_cat (Char c) (lit l) pre [c] l rest None None).
      * constructor.
      * apply IH; auto.
Qed.

Lemma match_plus_class_inv p pre s rest g :
  re_match (Plus (Class p)) pre s rest g ->
  s <> [] /\ Forall (fun c => p c = true) s /\ g = None.
Proof.
  intros H. remember (Plus (Class p)) as r eqn:Hr.
  induction H; try discriminate; injection Hr as ->.
  - inversion H; subst. repeat split; auto; try discriminate.
  - inversion H; subst. destruct (IHre_match2 eq_refl) as (_ & HF & ->).
    repeat split; try discriminate. now constructor.
Qed.

Lemma match_plus_class_intro p pre s rest :
  s <> [] -> Forall (fun c => p c = true) s ->
  re_match (Plus (Class p)) pre s rest None.
Proof.
  revert pre. induction s as [|c s IH]; intros pre Hne HF; [congruence|].
  inversion HF as [|? ? Hc HF']; subst.
  destruct s as [|d s].
  - apply m_plus_one. constructor; auto.
  - apply (m_plus_more (Class p) pre [c] (d :: s) rest None None).
    + constructor; auto.
    + apply IH; [discriminate | assumption].
Qed.

End Matching.

Lemma span_spec p s a b :
  span p s = (a, b) ->
  s = a ++ b /\ Forall (fun c => p c = true) a /\ stops p b.
Proof.
  revert a b. induction s as [|c s IH]; intros a b; simpl.
  - intros [= <- <-]. repeat split; auto.
  - destruct (p c) eqn:Hc.
    + destruct (span p s) as [a' b'] eqn:Hs. intros [= <- <-].
      destruct (IH a' b' eq_refl) as (-> & HF & Hst). repeat split; auto.
    + intros [= <- <-]. repeat split; auto.
Qed.

Lemma span_app p a b :
  Forall (fun c => p c = true) a -> stops p b -> span p (a ++ b) = (a, b).
Proof.
  intros HF Hst. induction HF as [|c a Hc HF IH]; simpl.
  - destruct b as [|d b]; simpl in *; [reflexivity|]. now rewrite Hst.
  - now rewrite Hc, IH.
Qed.

Lemma plus_run_inv p s a b :
  plus_run p s = Some (a, b) ->
  s = a ++ b /\ a <> [] /\ Forall (fun c => p c = true) a /\ stops p b.
Proof.
  unfold plus_run. destruct (span p s) as [a' b'] eqn:Hs.
  apply span_spec in Hs as (-> & HF & Hst).
  destruct a' as [|c a']; [discriminate|]. intros [= <- <-].
  repeat split; auto.
Qed.

Lemma plus_run_app p a b :
  a <> [] -> Forall (fun c => p c = true) a -> stops p b ->
  plus_run p (a ++ b) = Some (a, b).
Proof.
  intros Hne HF Hst. unfold plus_run. rewrite span_app by assumption.
  destruct a; congruence.
Qed.

Lemma strip_prefix_inv l s t : strip_prefix l s = Some t -> s = l ++ t.
Proof.
  revert s. induction l as [|c l IH]; intros [|d s]; simpl; try congruence.
  destruct (Ascii.eqb_spec c d) as [->|]; [|discriminate].
  intros H. now rewrite (IH _ H).
Qed.

Lemma strip_prefix_app l t : strip_prefix l (l ++ t) = Some t.
Proof.
  induction l as [|c l IH]; simpl; [now destruct t|].
  now rewrite Ascii.eqb_refl.
Qed.

Lemma strip_prefix_cons_ne c l d s : c <> d -> strip_prefix (c :: l) (d :: s) = None.
Proof. intros H. simpl. destruct (Ascii.eqb_spec c d); congruence. Qed.

Lemma any_char_inv s t : any_char s = Some t -> exists c, s = c :: t /\ c <> newline.
Proof.
  destruct s as [|c s]; simpl; [discriminate|].
  destruct (Ascii.eqb_spec c newline); [discriminate|]. intros [= <-]. eauto.
Qed.

Lemma any_char_cons c t : c <> newline -> any_char (c :: t) = Some t.
Proof. intros H. simpl. destruct (Ascii.eqb_spec c newline); congruence. Qed.

Lemma at_eol_spec s : at_eol s = true <-> s = [] \/ s = [newline].
Proof.
  destruct s as [|c [|d s]]; simpl.
  - intuition.
  - destruct (Ascii.eqb_spec c newline) as [->|]; intuition congruence.
  - intuition congruence.
Qed.

(** The classes that meet at the borders of the runs are disjoint. *)
Lemma alnum_not_underscore c : is_alnum c = true -> is_underscore c = false.
Proof. destruct c as [[] [] [] [] [] [] [] []]; vm_compute; congruence. Qed.

Lemma underscore_not_alnum c : is_underscore c = true -> is_alnum c = false.
Proof. destruct c as [[] [] [] [] [] [] [] []]; vm_compute; congruence. Qed.

Lemma digit_not_underscore c : is_digit c = true -> is_underscore c = false.
Proof. destruct c as [[] [] [] [] [] [] [] []]; vm_compute; congruence. Qed.

Lemma digit_is_alnum c : is_digit c = true -> is_alnum c = true.
Proof. unfold is_alnum, is_digit. now intros ->. Qed.

Lemma stops_head (p q : ascii -> bool) a b :
  a <> [] -> Forall (fun c => q c = true) a ->
  (forall c, q c = true -> p c = false) -> stops p (a ++ b).
Proof.
  intros Hne HF Hpq. destruct a as [|c a]; [congruence|].
  inversion HF; subst. simpl. auto.
Qed.

Section Patterns.
Import Re.

Ltac cat_inv H s1 g1 H1 :=
  let s2 := fresh "s" in
  let g2 := fresh "g" in
  apply match_cat_inv in H as (s1 & s2 & g1 & g2 & -> & H1 & H & ->).

Lemma derived_matches_shape s g :
  matches CLIO_DERIVED_ID s g <-> derived_shape s g.
Proof.
  split.
  - intros (consumed & rest & -> & H). unfold CLIO_DERIVED_ID in H. cbn [cats] in H.
    remember (Some g) as og eqn:Hg.
    cat_inv H b gb Hb. cat_inv H l gl Hl. cat_inv H us1 gu1 Hu1.
    cat_inv H seg gs Hs. cat_inv H us2 gu2 Hu2. cat_inv H num gn Hn.
    cat_inv H eo geo Heo.
    apply match_bol_inv in Hb as (_ & -> & ->).
    apply match_lit in Hl as [-> ->].
    apply match_plus_class_inv in Hu1 as (Nu1 & Fu1 & ->).
    apply match_group_inv in Hs as (-> & gi & Hs).
    apply match_plus_class_inv in Hs as (Ns & Fs & ->).
    apply match_plus_class_inv in Hu2 as (Nu2 & Fu2 & ->).
    apply match_plus_class_inv in Hn as (Nn & Fn & ->).
    apply match_eol_inv in Heo as (-> & -> & Hend).
    apply match_eps_inv in H as (-> & ->).
    simpl in Hg. injection Hg as <-.
    exists us1, us2, num, rest. simpl in Hend. rewrite !app_nil_r, !app_nil_l.
    rewrite <- !app_assoc. repeat split; auto.
  - intros (us1 & us2 & num & tl & -> & Hu1 & Fu1 & Hg & Fg & Hu2 & Fu2 & Hn & Fn & Htl).
    exists (str "ldpd" ++ us1 ++ g ++ us2 ++ num), tl. split.
    { now rewrite <- !app_assoc. }
    unfold CLIO_DERIVED_ID. cbn [cats].
    change (Some g) with (later (later (later (Some g) None) None) None).
    apply (m_cat Bol _ [] [] _ tl None). { constructor. }
    apply (m_cat (lit (str "ldpd")) _ _ (str "ldpd") _ tl None). { now apply match_lit. }
    apply (m_cat _ _ _ us1 _ tl None). { now apply match_plus_class_intro. }
    change (Some g) with (later (later (later None None) None) (Some g)).
    apply (m_cat _ _ _ g _ tl (Some g)).
    { apply m_group with (g := None). now apply match_plus_class_intro. }
    apply (m_cat _ _ _ us2 _ tl None). { now apply match_plus_class_intro. }
    apply (m_cat_end _ _ _ num tl None). { now apply match_plus_class_intro. }
    apply (m_cat_end Eol Eps _ [] tl None None); now constructor.
Qed.
End Patterns.

Lemma derived_shape_match s g :
  derived_shape s g -> CLIO_DERIVED_ID_match s = Some g.
Proof.
  intros (us1 & us2 & num & tl & -> & Hu1 & Fu1 & Hg & Fg & Hu2 & Fu2 & Hn & Fn & Htl).
  unfold CLIO_DERIVED_ID_match.
  rewrite strip_prefix_app. cbn [mbind option_bind].
  rewrite plus_run_app; auto.
  2:{ eapply stops_head; eauto using alnum_not_underscore. }
  cbn [mbind option_bind].
  rewrite plus_run_app; auto.
  2:{ eapply stops_head; eauto using underscore_not_alnum. }
  cbn [mbind option_bind].
  rewrite plus_run_app; auto.
  2:{ eapply stops_head; eauto using digit_not_underscore. }
  cbn [mbind option_bind].
  rewrite plus_run_app; auto.
  2:{ destruct Htl as [-> | ->]; simpl; auto. }
  cbn [mbind option_bind].
  now apply at_eol_spec in Htl as ->.
Qed.

Lemma derived_match_shape s g :
  CLIO_DERIVED_ID_match s = Some g -> derived_shape s g.
Proof.
  unfold CLIO_DERIVED_ID_match.
  destruct (strip_prefix (str "ldpd") s) as [s1|] eqn:E1; [|discriminate].
  cbn [mbind option_bind].
  destruct (plus_run is_underscore s1) as [[us1 s2]|] eqn:E2; [|discriminate].
  cbn [mbind option_bind].
  destruct (plus_run is_alnum s2) as [[seg s3]|] eqn:E3; [|discriminate].
  cbn [mbind option_bind].
  destruct (plus_run is_underscore s3) as [[us2 s4]|] eqn:E4; [|discriminate].
  cbn [mbind option_bind].
  destruct (plus_run is_digit s4) as [[num s5]|] eqn:E5; [|discriminate].
  cbn [mbind option_bind].
  destruct (at_eol s5) eqn:E6; [|discriminate]. intros [= <-].
  apply strip_prefix_inv in E1 as ->.
  apply plus_run_inv in E2 as (-> & ? & ? & _).
  apply plus_run_inv in E3 as (-> & ? & ? & _).
  apply plus_run_inv in E4 as (-> & ? & ? & _).
  apply plus_run_inv in E5 as (-> & ? & ? & _).
  apply at_eol_spec in E6.
  exists us1, us2, num, s5. repeat split; auto.
Qed.

(** [CLIO_DERIVED_ID_match] computes [CLIO_DERIVED_ID.match]: it returns
    a group exactly when the pattern matches with that group, and [None]
    exactly when the pattern does not match. *)
Lemma CLIO_DERIVED_ID_match_Some s g :
  CLIO_DERIVED_ID_match s = Some g <-> Re.matches CLIO_DERIVED_ID s g.
Proof.
  rewrite derived_matches_shape. split.
  - apply derived_match_shape.
  - apply derived_shape_match.
Qed.

Lemma CLIO_DERIVED_ID_match_None s :
  CLIO_DERIVED_ID_match s = None <-> forall g, ~ Re.matches CLIO_DERIVED_ID s g.
Proof.
  split.
  - intros E g Hm. apply CLIO_DERIVED_ID_match_Some in Hm. congruence.
  - intros H. destruct (CLIO_DERIVED_ID_match s) as [g|] eqn:E; [|reflexivity].
    apply CLIO_DERIVED_ID_match_Some in E. now apply H in E.
Qed.

Section LinkPattern.
Import Re.

Ltac list_norm :=
  repeat first [rewrite <- app_assoc | rewrite <- app_comm_cons]; reflexivity.

Ltac cat_inv H s1 g1 H1 :=
  let s2 := fresh "s" in
  let g2 := fresh "g" in
  apply match_cat_inv in H as (s1 & s2 & g1 & g2 & -> & H1 & H & ->).

Lemma link_matches_shape pre s g :
  matches_at CLIO_LINK pre s g <-> link_shape s g.
Proof.
  split.
  - intros (consumed & rest & -> & H). unfold CLIO_LINK in H. cbn [cats] in H.
    remember (Some g) as og eqn:Hg.
    cat_inv H q1 gq1 Hq1. cat_inv H l1 gl1 Hl1. cat_inv H a1 ga1 Ha1.
    cat_inv H l2 gl2 Hl2. cat_inv H a2 ga2 Ha2. cat_inv H l3 gl3 Hl3.
    cat_inv H seg gs Hs. cat_inv H q2 gq2 Hq2.
    apply match_char_inv in Hq1 as (-> & ->).
    apply match_lit in Hl1 as [-> ->].
    apply match_any_inv in Ha1 as (x & -> & Hx & ->).
    apply match_lit in Hl2 as [-> ->].
    apply match_any_inv in Ha2 as (y & -> & Hy & ->).
    apply match_lit in Hl3 as [-> ->].
    apply match_group_inv in Hs as (-> & gi & Hs).
    apply match_plus_class_inv in Hs as (Ns & Fs & ->).
    apply match_char_inv in Hq2 as (-> & ->).
    apply match_eps_inv in H as (-> & ->).
    simpl in Hg. injection Hg as <-.
    exists x, y, rest. repeat split; auto.
    rewrite !app_nil_r. list_norm.
  - intros (x & y & tl & -> & Hx & Hy & Hg & Fg).
    exists ((dquote :: str "http://clio") ++ x :: str "columbia" ++ y ::
            str "edu/catalog/" ++ g ++ [dquote]), tl. split.
    { list_norm. }
    unfold CLIO_LINK. cbn [cats].
    change (Some g) with
      (later (later (later (later (later (later (later None (Some g)) None) None) None) None) None) None).
    apply (m_cat (Char dquote) _ pre [dquote] _ tl None). { constructor. }
    apply (m_cat _ _ _ (str "http://clio") _ tl None). { now apply match_lit. }
    apply (m_cat Any _ _ [x] _ tl None). { now constructor. }
    apply (m_cat _ _ _ (str "columbia") _ tl None). { now apply match_lit. }
    apply (m_cat Any _ _ [y] _ tl None). { now constructor. }
    apply (m_cat _ _ _ (str "edu/catalog/") _ tl None). { now apply match_lit. }
    apply (m_cat _ _ _ g [dquote] tl (Some g)).
    { apply m_group with (g := None). now apply match_plus_class_intro. }
    apply (m_cat_end (Char dquote) Eps _ [dquote] tl None None); constructor.
Qed.
End LinkPattern.

Lemma link_shape_here s g : link_shape s g -> CLIO_LINK_here s = Some g.
Proof.
  intros (x & y & tl & -> & Hx & Hy & Hg & Fg). unfold CLIO_LINK_here.
  rewrite strip_prefix_app. cbn [mbind option_bind].
  rewrite any_char_cons by assumption. cbn [mbind option_bind].
  rewrite strip_prefix_app. cbn [mbind option_bind].
  rewrite any_char_cons by assumption. cbn [mbind option_bind].
  rewrite strip_prefix_app. cbn [mbind option_bind].
  rewrite plus_run_app by (auto; reflexivity). cbn [mbind option_bind].
  change (dquote :: tl) with ([dquote] ++ tl). rewrite strip_prefix_app.
  reflexivity.
Qed.

Lemma link_here_shape s g : CLIO_LINK_here s = Some g -> link_shape s g.
Proof.
  unfold CLIO_LINK_here.
  destruct (strip_prefix (dquote :: str "http://clio") s) as [s1|] eqn:E1;
    [|discriminate]. cbn [mbind option_bind].
  destruct (any_char s1) as [s2|] eqn:E2; [|discriminate]. cbn [mbind option_bind].
  destruct (strip_prefix (str "columbia") s2) as [s3|] eqn:E3; [|discriminate].
  cbn [mbind option_bind].
  destruct (any_char s3) as [s4|] eqn:E4; [|discriminate]. cbn [mbind option_bind].
  destruct (strip_prefix (str "edu/catalog/") s4) as [s5|] eqn:E5; [|discriminate].
  cbn [mbind option_bind].
  destruct (plus_run is_alnum s5) as [[seg s6]|] eqn:E6; [|discriminate].
  cbn [mbind option_bind].
  destruct (strip_prefix [dquote] s6) as [s7|] eqn:E7; [|discriminate].
  cbn [mbind option_bind]. intros [= <-].
  apply strip_prefix_inv in E1 as ->.
  apply any_char_inv in E2 as (x & -> & Hx).
  apply strip_prefix_inv in E3 as ->.
  apply any_char_inv in E4 as (y & -> & Hy).
  apply strip_prefix_inv in E5 as ->.
  apply plus_run_inv in E6 as (-> & ? & ? & _).
  apply strip_prefix_inv in E7 as ->.
  exists x, y, s7. repeat split; auto.
Qed.

(** An attempt of [CLIO_LINK] succeeds exactly when the pattern matches
    there. *)
Lemma CLIO_LINK_here_Some pre s g :
  CLIO_LINK_here s = Some g <-> Re.matches_at CLIO_LINK pre s g.
Proof.
  rewrite link_matches_shape. split.
  - apply link_here_shape.
  - apply link_shape_here.
Qed.

Lemma CLIO_LINK_here_None pre s :
  CLIO_LINK_here s = None <-> forall g, ~ Re.matches_at CLIO_LINK pre s g.
Proof.
  split.
  - intros E g Hm. apply CLIO_LINK_here_Some in Hm. congruence.
  - intros H. destruct (CLIO_LINK_here s) as [g|] eqn:E; [|reflexivity].
    apply (CLIO_LINK_here_Some pre) in E. now apply H in E.
Qed.

Lemma search_unfold s :
  CLIO_LINK_search s =
  match CLIO_LINK_here s with
  | Some g => Some g
  | None => match s with [] => None | _ :: s' => CLIO_LINK_search s' end
  end.
Proof. now destruct s. Qed.

Lemma search_leftmost s g :
  CLIO_LINK_search s = Some g <->
  exists pre tl,
    s = pre ++ tl /\ CLIO_LINK_here tl = Some g /\
    forall pre' tl', s = pre' ++ tl' -> (length pre' < length pre)%nat ->
                     CLIO_LINK_here tl' = None.
Proof.
  split.
  - induction s as [|c s IH]; simpl.
    + discriminate.
    + destruct (CLIO_LINK_here (c :: s)) as [g'|] eqn:E.
      * intros [= ->]. exists [], (c :: s). repeat split; auto; intros; simpl in *; lia.
      * intros H. destruct (IH H) as (pre & tl & -> & Hh & Hl).
        exists (c :: pre), tl. repeat split; auto.
        intros [|d pre'] tl' Heq Hlen; simpl in *.
        -- now subst tl'.
        -- injection Heq as -> Heq. apply (Hl pre' tl' Heq). lia.
  - intros (pre & tl & -> & Hh & Hl). induction pre as [|c pre IH].
    + change ([] ++ tl) with tl. rewrite search_unfold. now rewrite Hh.
    + rewrite <- app_comm_cons, search_unfold.
      rewrite (Hl [] (c :: pre ++ tl)) by (simpl; auto; lia).
      apply IH. intros pre' tl' Heq Hlen.
      apply (Hl (c :: pre') tl'); simpl; [now rewrite Heq | lia].
Qed.

Lemma search_none s :
  CLIO_LINK_search s = None <->
  forall pre tl, s = pre ++ tl -> CLIO_LINK_here tl = None.
Proof.
  split.
  - induction s as [|c s IH]; simpl.
    + intros _ pre tl Heq. symmetry in Heq. apply app_eq_nil in Heq as [_ ->].
      reflexivity.
    + destruct (CLIO_LINK_here (c :: s)) eqn:E; [discriminate|].
      intros H [|d pre] tl Heq; simpl in *.
      * now subst tl.
      * injection Heq as -> Heq. now apply (IH H pre).
  - intros H. destruct (CLIO_LINK_search s) as [g|] eqn:E; [|reflexivity].
    apply search_leftmost in E as (pre & tl & Heq & Hh & _).
    rewrite (H pre tl Heq) in Hh. discriminate.
Qed.

(** [CLIO_LINK_search] computes [CLIO_LINK.search]. *)
Lemma CLIO_LINK_search_Some s g :
  CLIO_LINK_search s = Some g <-> Re.search_finds CLIO_LINK s g.
Proof.
  rewrite search_leftmost. unfold Re.search_finds. split.
  - intros (pre & tl & Heq & Hh & Hl). exists pre, tl. repeat split; auto.
    + now apply CLIO_LINK_here_Some.
    + intros pre' tl' g' Heq' Hlen. apply CLIO_LINK_here_None. eauto.
  - intros (pre & tl & Heq & Hh & Hl). exists pre, tl. repeat split; auto.
    + now apply (CLIO_LINK_here_Some pre).
    + intros pre' tl' Heq' Hlen. apply (CLIO_LINK_here_None pre'). eauto.
Qed.

Lemma CLIO_LINK_search_None s :
  CLIO_LINK_search s = None <->
  forall pre tl g, s = pre ++ tl -> ~ Re.matches_at CLIO_LINK pre tl g.
Proof.
  rewrite search_none. split.
  - intros H pre tl g Heq. apply CLIO_LINK_here_None. eauto.
  - intros H pre tl Heq. apply (CLIO_LINK_here_None pre). eauto.
Qed.

(** ** [clio_id] *)

Lemma quoted_link_shape id post :
  id <> [] -> Forall (fun c => is_alnum c = true) id ->
  link_shape (quoted_link id ++ post) id.
Proof.
  intros Hne HF. exists "."%char, "."%char, post. repeat split; auto; try discriminate.
  unfold quoted_link.
  change (str "http://clio.columbia.edu/catalog/")
    with (str "http://clio" ++ "."%char :: str "columbia" ++ "."%char ::
          str "edu/catalog/").
  repeat first [rewrite <- app_assoc | rewrite <- app_comm_cons]. reflexivity.
Qed.

Lemma CLIO_LINK_here_no_quote c s : c <> dquote -> CLIO_LINK_here (c :: s) = None.
Proof.
  intros Hc. unfold CLIO_LINK_here.
  rewrite strip_prefix_cons_ne by congruence. reflexivity.
Qed.

Lemma CLIO_LINK_search_quoted pre id post :
  dquote ∉ pre -> id <> [] -> Forall (fun c => is_alnum c = true) id ->
  CLIO_LINK_search (pre ++ quoted_link id ++ post) = Some id.
Proof.
  intros Hpre Hne HF. induction pre as [|c pre IH].
  - change ([] ++ quoted_link id ++ post) with (quoted_link id ++ post).
    rewrite search_unfold, (link_shape_here _ id); auto using quoted_link_shape.
  - rewrite <- app_comm_cons, search_unfold.
    rewrite CLIO_LINK_here_no_quote.
    + apply IH. intros Hin. apply Hpre. now right.
    + intros ->. apply Hpre. now left.
Qed.

Lemma clio_id_structured doc identifier g :
  doc !! "identifier" = Some identifier ->
  CLIO_DERIVED_ID_match identifier = Some g ->
  clio_id doc = Ok (Some g).
Proof. intros Hid Hm. unfold clio_id. now rewrite Hid, Hm. Qed.

Lemma clio_id_fallback doc identifier :
  doc !! "identifier" = Some identifier ->
  CLIO_DERIVED_ID_match identifier = None ->
  clio_id doc = Ok (CLIO_LINK_search (default [] (doc !! "stripped_tags"))).
Proof.
  intros Hid Hm. unfold clio_id. rewrite Hid, Hm.
  now destruct (CLIO_LINK_search _).
Qed.

(** C6.  When the [identifier] of a document matches [CLIO_DERIVED_ID]
    (the prefix [ldpd], underscores, an alphanumeric segment, underscores,
    digits), [clio_id] returns the alphanumeric segment, whatever the other
    fields hold; for [ldpd_1234abc_5678] it returns [1234abc]; and when
    neither [CLIO_DERIVED_ID] matches the identifier nor [CLIO_LINK] occurs
    in [stripped_tags], it returns [None] and does not raise. *)
Theorem clio_id_structured_identifier (doc : gmap string text) (identifier : text) :
  doc !! "identifier" = Some identifier ->
  (forall g, Re.matches CLIO_DERIVED_ID identifier g -> clio_id doc = Ok (Some g)) /\
  (forall us1 seg us2 num,
      identifier = str "ldpd" ++ us1 ++ seg ++ us2 ++ num ->
      us1 <> [] -> Forall (fun c => c = "_"%char) us1 ->
      seg <> [] -> Forall (fun c => is_alnum c = true) seg ->
      us2 <> [] -> Forall (fun c => c = "_"%char) us2 ->
      num <> [] -> Forall (fun c => is_digit c = true) num ->
      clio_id doc = Ok (Some seg)) /\
  (identifier = str "ldpd_1234abc_5678" -> clio_id doc = Ok (Some (str "1234abc"))) /\
  ((forall g, ~ Re.matches CLIO_DERIVED_ID identifier g) ->
   (forall pre tl g, default [] (doc !! "stripped_tags") = pre ++ tl ->
                     ~ Re.matches_at CLIO_LINK pre tl g) ->
   clio_id doc = Ok None).
Proof.
  intros Hid. repeat split.
  - intros g Hm. apply CLIO_DERIVED_ID_match_Some in Hm.
    eauto using clio_id_structured.
  - intros us1 seg us2 num -> Nu1 Fu1 Ns Fs Nu2 Fu2 Nn Fn.
    apply (clio_id_structured _ _ _ Hid). apply derived_shape_match.
    exists us1, us2, num, []. rewrite app_nil_r. repeat split; auto.
    + eapply Forall_impl; [exact Fu1|]. now intros c ->.
    + eapply Forall_impl; [exact Fu2|]. now intros c ->.
  - intros ->. now apply (clio_id_structured _ _ _ Hid).
  - intros Hno Hnolink. apply CLIO_DERIVED_ID_match_None in Hno.
    apply CLIO_LINK_search_None in Hnolink.
    rewrite (clio_id_fallback _ _ Hid Hno). now rewrite Hnolink.
Qed.

Lemma clio_id_structured_identifier_witness :
  clio_id {[ "identifier" := str "ldpd__77x_0042" ]} = Ok (Some (str "77x")) /\
  clio_id {[ "identifier" := str "plain-item" ]} = Ok None.
Proof.
  split.
  - destruct (clio_id_structured_identifier
                {[ "identifier" := str "ldpd__77x_0042" ]} (str "ldpd__77x_0042"))
      as (H & _); [reflexivity|].
    apply H, CLIO_DERIVED_ID_match_Some. reflexivity.
  - destruct (clio_id_structured_identifier
                {[ "identifier" := str "plain-item" ]} (str "plain-item"))
      as (_ & _ & _ & H); [reflexivity|].
    apply H.
    + apply CLIO_DERIVED_ID_match_None. reflexivity.
    + apply CLIO_LINK_search_None. reflexivity.
Defined.

(** C7, as stated, fails: the text holds
    [https://clio.columbia.edu/catalog/9999], the identifier is not
    structured, and [clio_id] returns [None], not [9999]. *)
Lemma clio_id_https_link_not_found :
  doc_https !! "identifier" = Some (str "plain-item") /\
  (forall g, ~ Re.matches CLIO_DERIVED_ID (str "plain-item") g) /\
  doc_https !! "stripped_tags" =
    Some ((str "<a href=" ++ [dquote]) ++
          str "https://clio.columbia.edu/catalog/" ++ str "9999" ++
          dquote :: str ">") /\
  clio_id doc_https = Ok None /\
  clio_id doc_https <> Ok (Some (str "9999")).
Proof.
  repeat split; try reflexivity.
  - apply CLIO_DERIVED_ID_match_None. reflexivity.
  - discriminate.
Qed.

(** C7, amended.  When the identifier of a document does not match
    [CLIO_DERIVED_ID], [clio_id] returns the group of the leftmost match of
    [CLIO_LINK] in [stripped_tags] (the empty text when the field is
    absent): for a text whose first double quote opens
    ["http://clio.columbia.edu/catalog/<id>"], with the scheme [http], a
    non-empty alphanumeric [<id>] and the closing double quote, it returns
    [<id>].  When the identifier matches [CLIO_DERIVED_ID], its segment is
    returned even if [CLIO_LINK] occurs in [stripped_tags]. *)
Theorem clio_id_link_fallback (doc : gmap string text) (identifier : text) :
  doc !! "identifier" = Some identifier ->
  ((forall g, ~ Re.matches CLIO_DERIVED_ID identifier g) ->
   forall g, Re.search_finds CLIO_LINK (default [] (doc !! "stripped_tags")) g ->
             clio_id doc = Ok (Some g)) /\
  ((forall g, ~ Re.matches CLIO_DERIVED_ID identifier g) ->
   forall pre id post,
     doc !! "stripped_tags" = Some (pre ++ quoted_link id ++ post) ->
     dquote ∉ pre -> id <> [] -> Forall (fun c => is_alnum c = true) id ->
     clio_id doc = Ok (Some id)) /\
  (forall g g',
     Re.matches CLIO_DERIVED_ID identifier g ->
     Re.search_finds CLIO_LINK (default [] (doc !! "stripped_tags")) g' ->
     clio_id doc = Ok (Some g)).
Proof.
  intros Hid. repeat split.
  - intros Hno g Hs. apply CLIO_DERIVED_ID_match_None in Hno.
    apply CLIO_LINK_search_Some in Hs.
    rewrite (clio_id_fallback _ _ Hid Hno). now rewrite Hs.
  - intros Hno pre id post Htags Hpre Hne HF.
    apply CLIO_DERIVED_ID_match_None in Hno.
    rewrite (clio_id_fallback _ _ Hid Hno), Htags.
    change (default [] (Some (pre ++ quoted_link id ++ post)))
      with (pre ++ quoted_link id ++ post).
    now rewrite CLIO_LINK_search_quoted.
  - intros g g' Hm _. apply CLIO_DERIVED_ID_match_Some in Hm.
    eauto using clio_id_structured.
Qed.

Lemma clio_id_link_fallback_witness :
  clio_id {[ "identifier" := str "plain-item";
             "stripped_tags" :=
               str "<a href=" ++ quoted_link (str "9999") ++ str ">" ]}
  = Ok (Some (str "9999")) /\
  clio_id {[ "identifier" := str "ldpd_1234abc_5678";
             "stripped_tags" :=
               str "<a href=" ++ quoted_link (str "9999") ++ str ">" ]}
  = Ok (Some (str "1234abc")).
Proof.
  split.
  - destruct (clio_id_link_fallback
                {[ "identifier" := str "plain-item";
                   "stripped_tags" :=
                     str "<a href=" ++ quoted_link (str "9999") ++ str ">" ]}
                (str "plain-item")) as (_ & H & _); [reflexivity|].
    apply (H ltac:(apply CLIO_DERIVED_ID_match_None; reflexivity)
             (str "<a href=") (str "9999") (str ">")).
    + reflexivity.
    + compute_done.
    + discriminate.
    + repeat constructor.
  - destruct (clio_id_link_fallback
                {[ "identifier" := str "ldpd_1234abc_5678";
                   "stripped_tags" :=
                     str "<a href=" ++ quoted_link (str "9999") ++ str ">" ]}
                (str "ldpd_1234abc_5678")) as (_ & _ & H); [reflexivity|].
    apply (H (str "1234abc") (str "9999")).
    + apply CLIO_DERIVED_ID_match_Some. reflexivity.
    + apply CLIO_LINK_search_Some. reflexivity.
Defined.



(** On a document whose fields hold text, [Decoded.clio_id] is
    [clio_id]. *)
Lemma decoded_clio_id_text (doc : gmap string text) :
  Decoded.clio_id (Decoded.Str <$> doc) = clio_id doc.
Proof.
  unfold Decoded.clio_id, clio_id. rewrite !lookup_fmap.
  destruct (doc !! "identifier") as [identifier|]; [|reflexivity].
  cbn [fmap option_fmap option_map Decoded.subject].
  destruct (CLIO_DERIVED_ID_match identifier); [reflexivity|].
  destruct (doc !! "stripped_tags"); reflexivity.
Qed.




(** Without an [identifier], [doc['identifier']] raises. *)
Lemma clio_id_no_identifier doc :
  doc !! "identifier" = None -> clio_id doc = Raise (KeyError "identifier").
Proof. intros H. unfold clio_id. now rewrite H. Qed.

(** ** The paged search iterator *)

Example IA_three_pages :
  IA.traverse (IA.archive (seq 0 120)) 121 (IA.__init__ 50 1) [] =
  Some (seq 0 120,
        {| IA.rows := 50; IA.page := 3; IA.docs := []; IA.more := false |},
        [(50, 1); (50, 2); (50, 3)]).
Proof. vm_compute. reflexivity. Qed.

Section NextCases.
Context {D : Type} (search : Z -> Z -> IA.response D).

Lemma next_buffered (self : IA.t D) sent d ds :
  IA.docs self = d :: ds ->
  IA.__next__ search self sent =
  (Some d,
   {| IA.rows := IA.rows self; IA.page := IA.page self; IA.docs := ds;
      IA.more := IA.more self |},
   sent).
Proof. intros H. unfold IA.__next__. rewrite H. simpl. now rewrite H. Qed.

Lemma next_exhausted (self : IA.t D) sent :
  IA.docs self = [] -> IA.more self = false ->
  IA.__next__ search self sent = (None, self, sent).
Proof. intros H1 H2. unfold IA.__next__. rewrite H1, H2. simpl. now rewrite H1. Qed.

Lemma next_fetches (self : IA.t D) sent :
  IA.docs self = [] -> IA.more self = true ->
  IA.__next__ search self sent =
  let self1 := fst (IA.__fetch_next_page__ search self sent) in
  let sent1 := sent ++ [(IA.rows self, IA.page self + 1)] in
  match IA.docs self1 with
  | [] => (None, self1, sent1)
  | d :: ds =>
      (Some d,
       {| IA.rows := IA.rows self1; IA.page := IA.page self1; IA.docs := ds;
          IA.more := IA.more self1 |},
       sent1)
  end.
Proof. intros H1 H2. unfold IA.__next__. rewrite H1, H2. reflexivity. Qed.

(** After a fetch, [more] is false exactly when the pages fetched so far
    cover the total the service reports. *)
Lemma fetch_more (self : IA.t D) sent :
  let self1 := fst (IA.__fetch_next_page__ search self sent) in
  IA.more self1 = false <->
  IA.page self1 * IA.rows self1 >=
  IA.numFound (search (IA.rows self) (IA.page self + 1)).
Proof. simpl. rewrite Z.gtb_ltb, Z.ltb_ge. lia. Qed.

End NextCases.

Section Traversal.
Context {D : Type} (items : list D) (P : Z) (HP : 0 < P).

Let N : Z := Z.of_nat (length items).

Local Abbreviation pending := (IA.pending items).

Lemma archive_page k :
  0 <= k ->
  IA.found_docs (IA.archive items P (k + 1)) =
  take (Z.to_nat P) (drop (Z.to_nat (P * k)) items).
Proof. intros Hk. simpl. now replace (k + 1 - 1) with k by lia. Qed.

Lemma drop_page k :
  0 <= k ->
  drop (Z.to_nat (P * k)) items =
  take (Z.to_nat P) (drop (Z.to_nat (P * k)) items) ++
  drop (Z.to_nat (P * (k + 1))) items.
Proof.
  intros Hk. rewrite <- (take_drop (Z.to_nat P) (drop _ items)) at 1.
  rewrite drop_drop. do 2 f_equal. lia.
Qed.

Lemma drop_all k : N <= P * k -> drop (Z.to_nat (P * k)) items = [].
Proof. intros H. apply drop_ge. unfold N in H. lia. Qed.

Lemma take_page_nil (l : list D) : take (Z.to_nat P) l = [] -> l = [].
Proof.
  destruct l as [|d l]; [reflexivity|].
  destruct (Z.to_nat P) eqn:E; [lia | discriminate].
Qed.

Lemma drop_nil_covers k : 0 <= k -> drop (Z.to_nat (P * k)) items = [] -> N <= P * k.
Proof.
  intros Hk H. apply (f_equal length) in H. rewrite length_drop in H.
  simpl in H. unfold N. lia.
Qed.

Lemma drain_spec fuel : forall (self : IA.t D) sent,
  IA.rows self = P -> 0 <= IA.page self ->
  (length (IA.docs self ++ pending self) < fuel)%nat ->
  exists self',
    IA.drain (IA.archive items) fuel self sent =
      Some (IA.docs self ++ pending self, self',
            sent ++ map (pair P) (seqZ (IA.page self + 1)
                                       (IA.page self' - IA.page self))) /\
    IA.rows self' = P /\ IA.docs self' = [] /\ IA.more self' = false /\
    IA.page self <= IA.page self' /\
    ((IA.more self = false -> N <= P * IA.page self) -> N <= P * IA.page self') /\
    ((IA.more self = true -> IA.page self = 0 \/ P * IA.page self < N) ->
     IA.page self' = IA.page self \/ IA.page self' = 1 \/
     P * (IA.page self' - 1) < N) /\
    (IA.docs self = [] -> IA.more self = true -> IA.page self < IA.page self').
Proof.
  induction fuel as [|fuel IH]; intros self sent Hrows Hpage Hlen; [lia|].
  destruct self as [r p ds m]; simpl in Hrows, Hpage; subst r.
  destruct ds as [|d ds].
  - destruct m.
    + (* the buffer is empty and more pages are expected: fetch *)
      cbn [IA.drain]. rewrite next_fetches by reflexivity.
      cbn [IA.__fetch_next_page__ fst IA.docs IA.rows IA.page IA.more].
      rewrite archive_page by assumption.
      change (IA.numFound (IA.archive items P (p + 1))) with N.
      unfold IA.pending in Hlen |- *.
      cbn [IA.docs IA.more IA.page IA.rows app] in Hlen |- *.
      pose proof (drop_page p Hpage) as Hsplit.
      destruct (take (Z.to_nat P) (drop (Z.to_nat (P * p)) items))
        as [|d ds] eqn:Htake.
      * apply take_page_nil in Htake.
        pose proof (drop_nil_covers p Hpage Htake) as Hcov.
        assert (Hmore : (N >? P * (p + 1)) = false).
        { rewrite Z.gtb_ltb, Z.ltb_ge. lia. }
        rewrite Htake, Hmore.
        exists {| IA.rows := P; IA.page := p + 1; IA.docs := []; IA.more := false |}.
        split; [|cbn; repeat split; try lia;
                  intros H; destruct (H eq_refl) as [-> | ?]; lia].
        cbn. replace (p + 1 - p) with 1 by lia. reflexivity.
      * set (self1 := {| IA.rows := P; IA.page := p + 1; IA.docs := ds;
                         IA.more := N >? P * (p + 1) |}).
        assert (Hpend : drop (Z.to_nat (P * (p + 1))) items = pending self1).
        { unfold IA.pending, self1. cbn [IA.more IA.page IA.rows].
          destruct (N >? P * (p + 1)) eqn:Hm; [reflexivity|].
          apply drop_all. rewrite Z.gtb_ltb, Z.ltb_ge in Hm. lia. }
        rewrite Hsplit, Hpend in Hlen |- *.
        destruct (IH self1 (sent ++ [(P, p + 1)])) as
          (self' & Hd & Hr' & Hd' & Hm' & Hp' & Ha & Hb & _).
        { reflexivity. }
        { simpl. lia. }
        { simpl in Hlen |- *. lia. }
        rewrite Hd. exists self'.
        cbn [IA.docs IA.page IA.more IA.rows self1] in Hp', Ha, Hb.
        split.
        -- cbn [IA.page self1 IA.docs]. rewrite <- app_assoc. do 3 f_equal.
           replace (IA.page self' - p) with (Z.succ (IA.page self' - (p + 1))) by lia.
           rewrite (seqZ_cons (p + 1)) by lia. cbn [map app]. repeat f_equal; lia.
        -- assert (Ha' : N <= P * IA.page self').
           { apply Ha. rewrite Z.gtb_ltb, Z.ltb_ge. lia. }
           repeat split; auto; try lia.
    + (* the buffer is empty and no page is expected: the end *)
      cbn [IA.drain]. rewrite next_exhausted by reflexivity.
      exists {| IA.rows := P; IA.page := p; IA.docs := []; IA.more := false |}.
      split; [|cbn; repeat split; auto; try lia; discriminate].
      cbn. replace (p - p) with 0 by lia. cbn. now rewrite app_nil_r.
  - (* an item is buffered *)
    cbn [IA.drain]. rewrite (next_buffered _ _ _ d ds) by reflexivity.
    cbn [IA.rows IA.page IA.more].
    destruct (IH {| IA.rows := P; IA.page := p; IA.docs := ds; IA.more := m |} sent)
      as (self' & Hd & Hr' & Hd' & Hm' & Hp' & Ha & Hb & _).
    { reflexivity. }
    { assumption. }
    { unfold IA.pending in Hlen |- *. simpl in Hlen |- *. lia. }
    rewrite Hd. exists self'. split; [reflexivity|].
    cbn [IA.page IA.more IA.docs] in *. repeat split; auto. discriminate.
Qed.

End Traversal.

Lemma archive_honest {D : Type} (items : list D) rows page :
  Z.of_nat (length (IA.found_docs (IA.archive items rows page))) <= Z.max 0 rows /\
  Z.of_nat (length (IA.found_docs (IA.archive items rows page))) <=
    Z.max 0 (IA.numFound (IA.archive items rows page)).
Proof. simpl. rewrite length_take, length_drop. lia. Qed.

(** A first traversal of a fresh iterator over [archive items]. *)
Lemma traverse_fresh {D : Type} (items : list D) (P : Z) (fuel : nat) :
  0 < P -> (length items < fuel)%nat ->
  exists self',
    IA.traverse (IA.archive items) fuel (IA.__init__ P 1) [] =
      Some (items, self', map (pair P) (seqZ 1 (IA.page self'))) /\
    IA.rows self' = P /\ IA.docs self' = [] /\ IA.more self' = false /\
    1 <= IA.page self' /\
    Z.of_nat (length items) <= P * IA.page self' /\
    (IA.page self' = 1 \/ P * (IA.page self' - 1) < Z.of_nat (length items)).
Proof.
  intros HP Hfuel. unfold IA.traverse.
  set (self := IA.__iter__ (IA.__init__ P 1)).
  assert (Hrest : IA.docs self ++ IA.pending items self = items).
  { unfold IA.pending. cbn.
    now replace (Z.to_nat (P * (1 - 1))) with 0%nat by lia. }
  destruct (drain_spec items P HP fuel self []) as
    (self' & Hd & Hr & Hdocs & Hmore & Hle & Ha & Hb & Hc).
  { reflexivity. }
  { cbn. lia. }
  { now rewrite Hrest. }
  rewrite Hrest in Hd. cbn in Hd, Hle, Ha, Hb, Hc.
  replace (IA.page self' - (1 - 1)) with (IA.page self') in Hd by lia.
  exists self'. rewrite Hd. repeat split; auto.
  - specialize (Hc eq_refl eq_refl). lia.
  - apply Ha. discriminate.
  - destruct Hb as [Hb | Hb]; [now left | | exact Hb].
    specialize (Hc eq_refl eq_refl). lia.
Qed.

(** Iterating an exhausted iterator again asks for the page after the last
    one and yields nothing. *)
Lemma traverse_again {D : Type} (items : list D) (P : Z) (self : IA.t D) sent fuel :
  0 < P -> IA.rows self = P -> 0 <= IA.page self ->
  Z.of_nat (length items) <= P * IA.page self ->
  IA.traverse (IA.archive items) (S fuel) self sent =
  Some ([],
        {| IA.rows := P; IA.page := IA.page self + 1; IA.docs := [];
           IA.more := false |},
        sent ++ [(P, IA.page self + 1)]).
Proof.
  intros HP Hrows Hpage Hcov. unfold IA.traverse. cbn [IA.drain].
  rewrite next_fetches by reflexivity.
  cbn [IA.__fetch_next_page__ IA.__iter__ fst IA.docs IA.rows IA.page IA.more].
  rewrite Hrows, archive_page by assumption.
  rewrite drop_ge by lia. rewrite take_nil.
  replace (IA.numFound (IA.archive items P (IA.page self + 1)) >? P * (IA.page self + 1))
    with false; [reflexivity|].
  symmetry. simpl. rewrite Z.gtb_ltb, Z.ltb_ge. lia.
Qed.

(** C1.  Over a service that holds [N] items and serves them in ranking
    order, [P] to a page with [0 < P], one traversal of a fresh [IA]
    yields the [N] items in that order, given fuel for [N + 1] calls of
    [next]; it requests the pages [1 .. k] and no other, where [k] is the
    first page with [N <= P * k]; and after every fetch [more] is false
    exactly when [page * P >= N]. *)
Theorem IA_traversal_yields_all {D : Type} (items : list D) (P : Z) (fuel : nat) :
  0 < P -> (length items < fuel)%nat ->
  (exists self',
    IA.traverse (IA.archive items) fuel (IA.__init__ P 1) [] =
      Some (items, self', map (pair P) (seqZ 1 (IA.page self'))) /\
    IA.docs self' = [] /\ IA.more self' = false /\
    1 <= IA.page self' /\
    Z.of_nat (length items) <= P * IA.page self' /\
    (IA.page self' = 1 \/ P * (IA.page self' - 1) < Z.of_nat (length items))) /\
  (forall (self : IA.t D) sent,
     IA.rows self = P ->
     let self1 := fst (IA.__fetch_next_page__ (IA.archive items) self sent) in
     IA.more self1 = false <-> IA.page self1 * P >= Z.of_nat (length items)).
Proof.
  intros HP Hfuel. split.
  - destruct (traverse_fresh items P fuel HP Hfuel) as (self' & H & _ & H').
    exists self'. auto.
  - intros self sent Hrows self1.
    pose proof (fetch_more (IA.archive items) self sent) as H.
    cbn zeta in H. fold self1 in H. rewrite H.
    subst self1. simpl. rewrite Hrows. reflexivity.
Qed.

Lemma IA_traversal_yields_all_witness :
  exists self',
    IA.traverse (IA.archive (seq 0 120)) 121 (IA.__init__ 50 1) [] =
      Some (seq 0 120, self', map (pair 50) (seqZ 1 (IA.page self'))) /\
    IA.page self' = 3.
Proof.
  destruct (IA_traversal_yields_all (seq 0 120) 50 121)
    as [(self' & H & _ & _ & H1 & H2 & H3) _].
  - lia.
  - rewrite length_seq. lia.
  - exists self'. split; [exact H|]. rewrite length_seq in H2, H3. lia.
Defined.

(** C2.  Over a service that returns at most [rows] documents and at most
    [numFound] documents, when the page size is zero or the service
    reports no match, the first [next] of a traversal sends one request,
    for page 1, and raises [StopIteration]: the traversal yields nothing
    and sends nothing else. *)
Theorem IA_empty_traversal {D : Type}
    (search : Z -> Z -> IA.response D) (P : Z) :
  (forall rows page,
      Z.of_nat (length (IA.found_docs (search rows page))) <= Z.max 0 rows /\
      Z.of_nat (length (IA.found_docs (search rows page))) <=
        Z.max 0 (IA.numFound (search rows page))) ->
  P = 0 \/ IA.numFound (search P 1) = 0 ->
  exists self',
    IA.__next__ search (IA.__iter__ (IA.__init__ P 1)) [] = (None, self', [(P, 1)]) /\
    forall fuel,
      IA.traverse search (S fuel) (IA.__init__ P 1) [] = Some ([], self', [(P, 1)]).
Proof.
  intros Hsrv Hzero.
  assert (Hnil : IA.found_docs (search P (1 - 1 + 1)) = []).
  { destruct (Hsrv P 1) as [H1 H2]. replace (1 - 1 + 1) with 1 by lia.
    destruct (IA.found_docs (search P 1)); [reflexivity|].
    simpl length in *. destruct Hzero as [-> | Hz]; [|rewrite Hz in H2]; lia. }
  assert (Hnext : IA.__next__ search (IA.__iter__ (IA.__init__ P 1)) [] =
                  (None, fst (IA.__fetch_next_page__ search
                                (IA.__iter__ (IA.__init__ P 1)) []), [(P, 1)])).
  { rewrite next_fetches by reflexivity. cbn. cbn in Hnil. now rewrite Hnil. }
  eexists. split; [exact Hnext|].
  intros fuel. unfold IA.traverse. cbn [IA.drain]. now rewrite Hnext.
Qed.

Lemma IA_empty_traversal_witness :
  IA.traverse (IA.archive [1; 2; 3]%nat) 1 (IA.__init__ 0 1) [] =
    Some ([], {| IA.rows := 0; IA.page := 1; IA.docs := []; IA.more := true |},
          [(0, 1)]) /\
  IA.traverse (IA.archive (@nil nat)) 1 (IA.__init__ 50 1) [] =
    Some ([], {| IA.rows := 50; IA.page := 1; IA.docs := []; IA.more := false |},
          [(50, 1)]).
Proof.
  split.
  - destruct (IA_empty_traversal (IA.archive [1; 2; 3]%nat) 0)
      as (self' & Hn & Ht).
    + apply archive_honest.
    + left. reflexivity.
    + rewrite (Ht 0%nat). injection Hn as <-. reflexivity.
  - destruct (IA_empty_traversal (IA.archive (@nil nat)) 50)
      as (self' & Hn & Ht).
    + apply archive_honest.
    + right. reflexivity.
    + rewrite (Ht 0%nat). injection Hn as <-. reflexivity.
Defined.

(** C3, evaluated.  Three items, two to a page: the first traversal
    requests pages 1 and 2 and yields the three items; [iter] on the
    exhausted iterator leaves [params['page']] at 2, so the second
    traversal requests page 3 and yields nothing. *)
Theorem IA_second_traversal_yields_nothing :
  let search := IA.archive [1; 2; 3]%nat in
  let self1 := {| IA.rows := 2; IA.page := 2; IA.docs := []; IA.more := false |} in
  IA.traverse search 4 (IA.__init__ 2 1) [] =
    Some ([1; 2; 3]%nat, self1, [(2, 1); (2, 2)]) /\
  IA.page (IA.__iter__ self1) = 2 /\
  IA.traverse search 4 self1 [(2, 1); (2, 2)] =
    Some ([], {| IA.rows := 2; IA.page := 3; IA.docs := []; IA.more := false |},
          [(2, 1); (2, 2); (2, 3)]).
Proof. vm_compute. auto. Qed.

(** The same for every non-empty result: a second traversal differs from
    the first. *)
Lemma IA_second_traversal_general {D : Type} (items : list D) (P : Z) (fuel : nat) :
  0 < P -> (length items < fuel)%nat ->
  exists self1 sent1 self2,
    IA.traverse (IA.archive items) fuel (IA.__init__ P 1) [] =
      Some (items, self1, sent1) /\
    1 <= IA.page self1 /\
    IA.traverse (IA.archive items) fuel self1 sent1 =
      Some ([], self2, sent1 ++ [(P, IA.page self1 + 1)]).
Proof.
  intros HP Hfuel.
  destruct (traverse_fresh items P fuel HP Hfuel)
    as (self1 & H1 & Hr & _ & _ & Hp & Hcov & _).
  destruct fuel as [|fuel]; [lia|].
  eexists self1, _, _. split; [exact H1|]. split; [exact Hp|].
  apply traverse_again; auto; lia.
Qed.

(** ** [fetch_clio] *)

Section FetchClio.
Import Clio.

Lemma gets_app w1 w2 : gets (w1 ++ w2) = (gets w1 + gets w2)%nat.
Proof. unfold gets. now rewrite List.filter_app, length_app. Qed.

Lemma sleeps_app w1 w2 : sleeps (w1 ++ w2) = sleeps w1 ++ sleeps w2.
Proof. unfold sleeps. apply omap_app. Qed.

Variable catalogue : nat -> response.

(** A first attempt that parses returns the record. *)
Lemma fetch_clio_parsed depth identifier w record :
  marc (catalogue (gets w)) = Ok record ->
  fetch_clio catalogue (S depth) identifier (-1) w = (Ok record, w ++ [Get identifier]).
Proof. intros H. cbn. now rewrite H. Qed.

(** A first attempt that fails to parse, the status not 429, returns the
    placeholder after one request. *)
Lemma fetch_clio_not_throttled depth identifier w e :
  marc (catalogue (gets w)) = Raise e -> caught e = true ->
  status_code (catalogue (gets w)) <> 429 ->
  fetch_clio catalogue (S depth) identifier (-1) w =
  (Ok Record_new, w ++ [Get identifier] ++ [Log RetryingOnlyOnce]).
Proof.
  intros Hm Hc Hs. cbn. rewrite Hm, Hc.
  destruct (Z.eqb_spec (status_code (catalogue (gets w))) 429); [contradiction|].
  now rewrite <- app_assoc.
Qed.

Lemma sleep_ok seconds w :
  0 <= seconds <= sleep_max -> sleep seconds w = Ok (w ++ [Sleep seconds]).
Proof.
  intros H. unfold sleep.
  replace (seconds <? - sleep_max) with false
    by (symmetry; apply Z.ltb_ge; unfold sleep_max in *; lia).
  replace (sleep_max <? seconds) with false by (symmetry; apply Z.ltb_ge; lia).
  replace (seconds <? 0) with false by (symmetry; apply Z.ltb_ge; lia).
  reflexivity.
Qed.

Lemma sleep_negative seconds w :
  - sleep_max <= seconds < 0 -> sleep seconds w = Raise ValueError.
Proof.
  intros H. unfold sleep.
  replace (seconds <? - sleep_max) with false by (symmetry; apply Z.ltb_ge; lia).
  replace (sleep_max <? seconds) with false
    by (symmetry; apply Z.ltb_ge; unfold sleep_max in *; lia).
  replace (seconds <? 0) with true by (symmetry; apply Z.ltb_lt; lia).
  reflexivity.
Qed.

Lemma sleep_too_long seconds w :
  sleep_max < seconds -> sleep seconds w = Raise OverflowError.
Proof.
  intros H. unfold sleep.
  replace (sleep_max <? seconds) with true by (symmetry; apply Z.ltb_lt; lia).
  now rewrite orb_true_r.
Qed.

(** A call with a delay that is not the sentinel and that [time.sleep]
    takes sleeps, sends one request and does not call itself: it returns
    the record, or the placeholder when the record does not parse. *)
Lemma fetch_clio_delayed depth identifier retry_after w :
  0 <= retry_after <= sleep_max ->
  let w1 := w ++ [Sleep retry_after; Get identifier] in
  fetch_clio catalogue (S depth) identifier retry_after w =
  match marc (catalogue (gets w)) with
  | Ok record => (Ok record, w1)
  | Raise e =>
      if caught e then (Ok Record_new, w1 ++ [Log RetryingOnlyOnce])
      else (Raise e, w1)
  end.
Proof.
  intros Hra w1. cbn [fetch_clio].
  destruct (Z.eqb_spec retry_after (-1)) as [E|_]; [lia|].
  rewrite sleep_ok by assumption.
  rewrite gets_app. cbn [gets List.filter is_get length app].
  rewrite Nat.add_0_r, <- app_assoc. cbn [app andb]. fold w1.
  destruct (marc (catalogue (gets w))) as [record|e]; [reflexivity|].
  destruct (caught e); reflexivity.
Qed.

(** The retry on a rate limit, for a delay [s] that is not negative and
    that [time.sleep] takes: one pause of [s + 1] seconds, then one more
    request, the last. *)
Lemma fetch_clio_retries_once depth identifier e s :
  marc (catalogue 0) = Raise e -> caught e = true ->
  status_code (catalogue 0) = 429 ->
  retry_after_header (catalogue 0) = Ok s -> 0 <= s < sleep_max ->
  let w2 := [Get identifier; Log (RateLimiting (s + 1)); Log Headers;
             Sleep (s + 1); Get identifier] in
  gets w2 = 2%nat /\ sleeps w2 = [s + 1] /\
  fetch_clio catalogue (S (S depth)) identifier (-1) [] =
  match marc (catalogue 1) with
  | Ok record => (Ok record, w2)
  | Raise e' =>
      if caught e' then (Ok Record_new, w2 ++ [Log RetryingOnlyOnce])
      else (Raise e', w2)
  end.
Proof.
  intros Hm Hc Hs Hh Hnn w2. repeat split.
  change (fetch_clio catalogue (S (S depth)) identifier (-1) [])
    with (match marc (catalogue 0) with
          | Ok record => (Ok record, [Get identifier])
          | Raise e =>
              if caught e then
                if true && (status_code (catalogue 0) =? 429) then
                  match retry_after_header (catalogue 0) with
                  | Raise e' => (Raise e', [Get identifier])
                  | Ok seconds =>
                      fetch_clio catalogue (S depth) identifier (seconds + 1)
                        ([Get identifier] ++
                         [Log (RateLimiting (seconds + 1)); Log Headers])
                  end
                else (Ok Record_new, [Get identifier] ++ [Log RetryingOnlyOnce])
              else (Raise e, [Get identifier])
          end).
  rewrite Hm, Hc, Hs, Hh. cbn [andb Z.eqb Pos.eqb].
  rewrite fetch_clio_delayed by lia. reflexivity.
Qed.

End FetchClio.

Section FetchClioSentinel.
Import Clio.

(** Against [throttling], every call computes [retry_after = -2 + 1], the
    value that marks a first attempt: no call sleeps and each sends a
    request and calls [fetch_clio] again, as long as a frame is left. *)
Lemma fetch_clio_throttling depth : forall identifier w,
  exists w',
    fetch_clio throttling depth identifier (-1) w = (Raise RecursionError, w') /\
    gets w' = (gets w + depth)%nat /\ sleeps w' = sleeps w.
Proof.
  induction depth as [|depth IH]; intros identifier w.
  - exists w. cbn. auto with lia.
  - cbn [fetch_clio]. cbn -[fetch_clio]. change (-2 + 1) with (-1).
    destruct (IH identifier
                ((w ++ [Get identifier]) ++ [Log (RateLimiting (-1)); Log Headers]))
      as (w' & Hf & Hg & Hs).
    exists w'. rewrite Hf. repeat split.
    + rewrite Hg, !gets_app. cbn. lia.
    + rewrite Hs, !sleeps_app. cbn. now rewrite !app_nil_r.
Qed.

(** C4, evaluated.  Against a catalogue that answers every request with
    status 429, a body that is no record and [Retry-After: -2],
    [fetch_clio] sends as many requests as the interpreter has frames,
    1000 by default, without a pause, and ends in [RecursionError]: the
    retries are not bounded by one. *)
Theorem fetch_clio_retries_unbounded (identifier : text) :
  (forall depth, exists w,
      fetch_clio throttling depth identifier (-1) [] = (Raise RecursionError, w) /\
      gets w = depth /\ sleeps w = []) /\
  (exists w,
      fetch_clio throttling 1000 identifier (-1) [] = (Raise RecursionError, w) /\
      gets w = 1000%nat).
Proof.
  split.
  - intros depth. destruct (fetch_clio_throttling depth identifier []) as (w & H & Hg & Hs).
    exists w. auto.
  - destruct (fetch_clio_throttling 1000 identifier []) as (w & H & Hg & _).
    exists w. auto.
Qed.

(** C5, evaluated.  The first attempt is throttled with [Retry-After: -2]
    and the retry fails as well: the retry runs as a first attempt, so
    instead of the placeholder the call raises, [KeyError] when the second
    response has no [Retry-After], [RecursionError] when the catalogue goes
    on throttling with [Retry-After: -2]. *)
Theorem fetch_clio_failed_retry_raises (identifier : text) :
  fetch_clio throttled_twice 1000 identifier (-1) [] =
    (Raise (KeyError "retry-after"),
     [Get identifier; Log (RateLimiting (-1)); Log Headers; Get identifier]) /\
  fst (fetch_clio throttling 1000 identifier (-1) []) = Raise RecursionError.
Proof.
  split.
  - reflexivity.
  - destruct (fetch_clio_throttling 1000 identifier []) as (w & H & _).
    now rewrite H.
Qed.

(** [Retry-After: 3]: one pause of four seconds and one retry, whose
    outcome is the outcome of the call. *)
Example fetch_clio_retry_after_3 identifier record :
  fetch_clio
    (throttle_once 3 {| status_code := 200; marc := Ok record;
                        retry_after_header := Raise (KeyError "retry-after") |})
    1000 identifier (-1) [] =
  (Ok record,
   [Get identifier; Log (RateLimiting 4); Log Headers; Sleep 4; Get identifier]) /\
  fetch_clio
    (throttle_once 3 {| status_code := 429; marc := Raise RecordLengthInvalid;
                        retry_after_header := Ok 3 |})
    1000 identifier (-1) [] =
  (Ok Record_new,
   [Get identifier; Log (RateLimiting 4); Log Headers; Sleep 4; Get identifier;
    Log RetryingOnlyOnce]).
Proof. split; reflexivity. Qed.

(** A negative delay other than the sentinel makes the retry raise in
    [time.sleep], before any request. *)
Lemma fetch_clio_negative_delay identifier s second :
  - sleep_max - 1 <= s < -2 ->
  fetch_clio (throttle_once s second) 1000 identifier (-1) [] =
  (Raise ValueError,
   [Get identifier; Log (RateLimiting (s + 1)); Log Headers]).
Proof.
  intros Hs. cbn -[Z.add sleep].
  destruct (Z.eqb_spec (s + 1) (-1)) as [E|_]; [lia|].
  rewrite sleep_negative by lia. reflexivity.
Qed.

End FetchClioSentinel.

(** ** [ia_links] *)

(** C9.  [ia_links] reads nothing but the identifier: two documents with
    the same identifier get the same four links, which are the templates
    filled with the identifier, and the call does not raise. *)
Theorem ia_links_deterministic (doc1 doc2 : gmap string text) (ia_id : text) :
  doc1 !! "identifier" = Some ia_id ->
  doc2 !! "identifier" = Some ia_id ->
  ia_links doc1 = ia_links doc2 /\
  exists links,
    ia_links doc1 = Ok links /\
    dom links = {[ "thumbnail"; "poster"; "pdf"; "iframe" ]} /\
    links !! "thumbnail" = Some (str "https://archive.org/services/img/" ++ ia_id) /\
    links !! "poster" =
      Some (str "https://archive.org/download/" ++ ia_id ++
            str "/page/cover_medium.jpg") /\
    links !! "pdf" =
      Some (str "https://archive.org/download/" ++ ia_id ++ str "/" ++ ia_id ++
            str ".pdf") /\
    links !! "iframe" =
      Some (str "https://archive.org/stream/" ++ ia_id ++
            str "?ui=full&showNavbar=false").
Proof.
  intros H1 H2. unfold ia_links. rewrite H1, H2. split; [reflexivity|].
  eexists. split; [reflexivity|]. split.
  - rewrite !dom_insert_L, dom_singleton_L. set_solver.
  - repeat split; now simplify_map_eq.
Qed.

Lemma ia_links_deterministic_witness :
  ia_links {[ "identifier" := str "bookofhours00unse"; "title" := str "Hours" ]} =
  ia_links {[ "identifier" := str "bookofhours00unse" ]}.
Proof.
  apply (ia_links_deterministic _ _ (str "bookofhours00unse")); reflexivity.
Defined.

(** ** [dump_iterable] *)

Section DumpIterable.
Import Dump.
Context {A : Type} (json_dumps : A -> text).

Lemma lines_out l evs : lines (Out l :: evs) = l :: lines evs.
Proof. reflexivity. Qed.

Lemma lines_next evs : lines (Next :: evs) = lines evs.
Proof. reflexivity. Qed.

Lemma lines_app evs1 evs2 : lines (evs1 ++ evs2) = lines evs1 ++ lines evs2.
Proof. apply omap_app. Qed.

Lemma while_loop_lines (items : list A) : forall d,
  lines (while_loop json_dumps (map Some items) (Some d)) =
  str "," :: json_dumps d :: flat_map (fun x => [str ","; json_dumps x]) items.
Proof.
  induction items as [|x items IH]; intros d; cbn [map while_loop].
  - reflexivity.
  - rewrite !lines_out, lines_next, IH. reflexivity.
Qed.

Lemma dump_iterable_lines (a : A) (items : list A) :
  lines (dump_iterable json_dumps (map Some (a :: items))) =
  str "[" :: json_dumps a ::
  flat_map (fun x => [str ","; json_dumps x]) items ++ [str "]"].
Proof.
  unfold dump_iterable. cbn [map next_or_none].
  destruct items as [|x items]; [reflexivity|].
  cbn [map next_or_none].
  rewrite lines_out, lines_next, <- app_comm_cons, lines_out, <- app_comm_cons,
    lines_next, lines_app, while_loop_lines.
  reflexivity.
Qed.

Lemma ws_newline : Json.ws [newline].
Proof. repeat constructor. Qed.

Hypothesis dumps_valid : forall d, Json.value (json_dumps d).

Lemma dumped_elements (items : list A) : forall a,
  Json.elements
    ([newline] ++ json_dumps a ++ [newline] ++
     concat (map (fun l => l ++ [newline])
                 (flat_map (fun x => [str ","; json_dumps x]) items))).
Proof.
  induction items as [|x items IH]; intros a.
  - cbn [flat_map map concat]. apply Json.e_last; auto using ws_newline.
  - cbn [flat_map map concat app].
    change (str "," ++ [newline]) with (","%char :: [newline]).
    rewrite <- !app_assoc.
    apply (Json.e_more [newline] (json_dumps a) [newline]); auto using ws_newline.
    apply IH.
Qed.

(** Whatever the number of documents, the text printed is a JSON text. *)
Lemma dump_iterable_valid_json (items : list A) :
  Json.json_text (stdout (dump_iterable json_dumps (map Some items))).
Proof.
  destruct items as [|a items].
  - exists [], ("["%char :: [newline] ++ str "]"), [newline].
    split; [reflexivity|]. split; [constructor|].
    split; [|apply ws_newline].
    apply Json.v_array_empty, ws_newline.
  - unfold stdout. rewrite dump_iterable_lines.
    exists [],
      ("["%char ::
       ([newline] ++ json_dumps a ++ [newline] ++
        concat (map (fun l => l ++ [newline])
                    (flat_map (fun x => [str ","; json_dumps x]) items))) ++
       str "]"),
      [newline].
    split; [|split; [constructor|split; [|apply ws_newline]]].
    + cbn [map concat app]. rewrite map_app, concat_app. cbn [map concat app].
      rewrite app_nil_r. change (str "[" ++ [newline]) with ("["%char :: [newline]).
      rewrite <- !app_assoc. reflexivity.
    + apply Json.v_array, dumped_elements.
Qed.

End DumpIterable.

(** An element [None] ends the output like the end of the iterator. *)
Lemma dump_iterable_stops_at_None {A : Type} (json_dumps : A -> text) (a : A) :
  Dump.dump_iterable json_dumps [None; Some a] =
  [Dump.Out (str "["); Dump.Next; Dump.Out (str "]")].
Proof. reflexivity. Qed.

(** C8.  On an iterator that yields nothing, [dump_iterable] prints the
    two lines [[] and []]; on one that yields three documents it prints
    [[], the first, [,], the second, [,], the third, []], and asks for a
    document only after it has printed the one before; when [json.dumps]
    gives JSON values, both outputs are JSON texts. *)
Theorem dump_iterable_output {A : Type} (json_dumps : A -> text) (a b c : A) :
  (forall d, Json.value (json_dumps d)) ->
  Dump.dump_iterable json_dumps [] =
    [Dump.Out (str "["); Dump.Next; Dump.Out (str "]")] /\
  Dump.stdout (Dump.dump_iterable json_dumps []) =
    str "[" ++ [newline] ++ str "]" ++ [newline] /\
  Dump.dump_iterable json_dumps [Some a; Some b; Some c] =
    [Dump.Out (str "["); Dump.Next;
     Dump.Out (json_dumps a); Dump.Next;
     Dump.Out (str ","); Dump.Out (json_dumps b); Dump.Next;
     Dump.Out (str ","); Dump.Out (json_dumps c); Dump.Next;
     Dump.Out (str "]")] /\
  Dump.lines (Dump.dump_iterable json_dumps [Some a; Some b; Some c]) =
    [str "["; json_dumps a; str ","; json_dumps b; str ","; json_dumps c; str "]"] /\
  Json.json_text (Dump.stdout (Dump.dump_iterable json_dumps [])) /\
  Json.json_text (Dump.stdout (Dump.dump_iterable json_dumps [Some a; Some b; Some c])).
Proof.
  intros Hvalid. repeat split; try reflexivity.
  - apply (dump_iterable_valid_json json_dumps Hvalid []).
  - apply (dump_iterable_valid_json json_dumps Hvalid [a; b; c]).
Qed.

Lemma dump_iterable_output_witness :
  Dump.stdout
    (Dump.dump_iterable (fun b : bool => if b then str "true" else str "false")
       [Some true; Some false; Some true]) =
  str "[" ++ [newline] ++ str "true" ++ [newline] ++ str "," ++ [newline] ++
  str "false" ++ [newline] ++ str "," ++ [newline] ++ str "true" ++ [newline] ++
  str "]" ++ [newline] /\
  Json.json_text
    (Dump.stdout
       (Dump.dump_iterable (fun b : bool => if b then str "true" else str "false")
          [Some true; Some false; Some true])).
Proof.
  split; [reflexivity|].
  apply (dump_iterable_output
           (fun b : bool => if b then str "true" else str "false") true false true).
  intros [|]; constructor.
Defined.

(** * Further properties *)

(** ** The iterator outside a single fresh traversal *)

(** X1.  An iterator built with a start page [k] yields the items from the
    offset [P * (k - 1)] on, in order, and requests the pages from [k]
    on. *)
Theorem IA_traversal_from_page {D : Type} (items : list D) (P k : Z) (fuel : nat) :
  0 < P -> 1 <= k -> (length items < fuel)%nat ->
  exists self',
    IA.traverse (IA.archive items) fuel (IA.__init__ P k) [] =
      Some (drop (Z.to_nat (P * (k - 1))) items, self',
            map (pair P) (seqZ k (IA.page self' - (k - 1)))) /\
    IA.docs self' = [] /\ IA.more self' = false /\ k <= IA.page self'.
Proof.
  intros HP Hk Hfuel. unfold IA.traverse.
  set (self := IA.__iter__ (IA.__init__ P k)).
  assert (Hrest : IA.docs self ++ IA.pending items self =
                  drop (Z.to_nat (P * (k - 1))) items) by reflexivity.
  destruct (drain_spec items P HP fuel self []) as
    (self' & Hd & _ & Hdocs & Hmore & _ & _ & _ & Hc).
  { reflexivity. }
  { cbn. lia. }
  { rewrite Hrest, length_drop. lia. }
  rewrite Hrest in Hd. cbn in Hd, Hc.
  replace (k - 1 + 1) with k in Hd by lia.
  exists self'. rewrite Hd. repeat split; auto.
  specialize (Hc eq_refl eq_refl). lia.
Qed.

Lemma IA_traversal_from_page_witness :
  exists self',
    IA.traverse (IA.archive (seq 0 120)) 121 (IA.__init__ 50 3) [] =
      Some (seq 100 20, self', map (pair 50) (seqZ 3 (IA.page self' - 2))).
Proof.
  destruct (IA_traversal_from_page (seq 0 120) 50 3 121) as (self' & H & _).
  - lia.
  - lia.
  - rewrite length_seq. lia.
  - exists self'. exact H.
Defined.

Lemma next_times_exhausted {D : Type} (search : Z -> Z -> IA.response D)
    (self : IA.t D) sent n :
  IA.docs self = [] -> IA.more self = false ->
  next_times search n self sent = (repeat None n, self, sent).
Proof.
  intros Hd Hm. induction n as [|n IH]; [reflexivity|].
  cbn [next_times repeat]. rewrite next_exhausted by assumption.
  now rewrite IH.
Qed.

(** X2.  Once a traversal with a positive page size has ended, the
    iterator stays at its end: every later [next] raises [StopIteration],
    sends no request and changes nothing. *)
Theorem IA_exhausted_stays_exhausted {D : Type} (items : list D) (P : Z)
    (fuel : nat) :
  0 < P -> (length items < fuel)%nat ->
  exists self' sent',
    IA.traverse (IA.archive items) fuel (IA.__init__ P 1) [] =
      Some (items, self', sent') /\
    forall n,
      next_times (IA.archive items) n self' sent' = (repeat None n, self', sent').
Proof.
  intros HP Hfuel.
  destruct (traverse_fresh items P fuel HP Hfuel) as (self' & H & _ & Hd & Hm & _).
  eexists self', _. split; [exact H|].
  intros n. now apply next_times_exhausted.
Qed.

Lemma IA_exhausted_stays_exhausted_witness :
  exists self' sent',
    IA.traverse (IA.archive [1; 2; 3]%nat) 4 (IA.__init__ 2 1) [] =
      Some ([1; 2; 3]%nat, self', sent') /\
    next_times (IA.archive [1; 2; 3]%nat) 5 self' sent' = (repeat None 5, self', sent').
Proof.
  destruct (IA_exhausted_stays_exhausted [1; 2; 3]%nat 2 4) as (self' & sent' & H & Hn).
  - lia.
  - simpl. lia.
  - exists self', sent'. split; [exact H | apply Hn].
Defined.

Lemma next_times_zero_rows {D : Type} (items : list D) n : forall p sent,
  items <> [] ->
  next_times (IA.archive items) n
    {| IA.rows := 0; IA.page := p; IA.docs := []; IA.more := true |} sent =
  (repeat None n,
   {| IA.rows := 0; IA.page := p + Z.of_nat n; IA.docs := []; IA.more := true |},
   sent ++ map (pair 0) (seqZ (p + 1) (Z.of_nat n))).
Proof.
  induction n as [|n IH]; intros p sent Hne.
  - cbn. now rewrite app_nil_r, Z.add_0_r.
  - cbn [next_times repeat]. rewrite next_fetches by reflexivity.
    cbn [IA.__fetch_next_page__ fst IA.docs IA.rows IA.page IA.more IA.archive
         IA.found_docs IA.numFound Z.to_nat take].
    replace (Z.of_nat (length items) >? 0 * (p + 1)) with true.
    2:{ symmetry. rewrite Z.gtb_ltb, Z.ltb_lt. destruct items; [congruence|].
        simpl length. lia. }
    change (Z.to_nat 0) with 0%nat. rewrite take_0. cbn zeta iota.
    rewrite IH by assumption. f_equal; [f_equal|].
    + f_equal. lia.
    + rewrite <- app_assoc. f_equal.
      rewrite (seqZ_cons (p + 1) (Z.of_nat (S n))) by lia. cbn [map app].
      repeat f_equal; lia.
Qed.

(** X3.  With a page size of zero over a collection that is not empty,
    [more] never turns false: every [next] raises [StopIteration] and
    every one of them sends a request, for the next page. *)
Theorem IA_zero_page_size_keeps_requesting {D : Type} (items : list D) (n : nat) :
  items <> [] ->
  next_times (IA.archive items) n (IA.__iter__ (IA.__init__ 0 1)) [] =
  (repeat None n,
   {| IA.rows := 0; IA.page := Z.of_nat n; IA.docs := []; IA.more := true |},
   map (pair 0) (seqZ 1 (Z.of_nat n))).
Proof.
  intros Hne. unfold IA.__iter__, IA.__init__. cbn [IA.rows IA.page].
  now rewrite (next_times_zero_rows items n (1 - 1) [] Hne).
Qed.

Lemma IA_zero_page_size_keeps_requesting_witness :
  next_times (IA.archive [1; 2; 3]%nat) 3 (IA.__iter__ (IA.__init__ 0 1)) [] =
  ([None; None; None],
   {| IA.rows := 0; IA.page := 3; IA.docs := []; IA.more := true |},
   [(0, 1); (0, 2); (0, 3)]).
Proof.
  apply (IA_zero_page_size_keeps_requesting [1; 2; 3]%nat 3). discriminate.
Defined.

(** X4.  Over a service that returns at most [rows] documents to a page,
    the iterator never buffers more than one page: whatever the calls of
    [next], [docs] holds at most [page_size] documents and [rows] stays the
    page size. *)
Theorem IA_buffer_bounded {D : Type} (search : Z -> Z -> IA.response D)
    (P page : Z) (self : IA.t D) :
  (forall rows page,
      Z.of_nat (length (IA.found_docs (search rows page))) <= Z.max 0 rows) ->
  next_reaches search (IA.__iter__ (IA.__init__ P page)) self ->
  IA.rows self = P /\ Z.of_nat (length (IA.docs self)) <= Z.max 0 P.
Proof.
  intros Hsrv H. induction H as [|self sent H [IHr IHd]].
  - cbn. lia.
  - destruct self as [r p ds m]. cbn in IHr, IHd. subst r.
    destruct ds as [|d ds].
    + destruct m.
      * rewrite next_fetches by reflexivity.
        cbn [IA.__fetch_next_page__ fst IA.docs IA.rows IA.page IA.more].
        specialize (Hsrv P (p + 1)).
        destruct (IA.found_docs (search P (p + 1))) as [|d ds]; cbn in *; lia.
      * rewrite next_exhausted by reflexivity. cbn. lia.
    + rewrite (next_buffered _ _ _ d ds) by reflexivity. cbn in *. lia.
Qed.

Lemma IA_buffer_bounded_witness :
  Z.of_nat (length (IA.docs
    (snd (fst (IA.__next__ (IA.archive (seq 0 120))
                 (IA.__iter__ (IA.__init__ 50 1)) []))))) <= Z.max 0 50.
Proof.
  apply (IA_buffer_bounded (IA.archive (seq 0 120)) 50 1).
  - intros rows page. apply archive_honest.
  - apply reaches_next, reaches_start.
Defined.

(** ** [fetch_list] and [fetch_document] *)

Section FetchList.
Context {D : Type} (items : list D) (P : Z) (HP : 0 < P).

Let N : Z := Z.of_nat (length items).

Lemma fetch_list_loop_spec fuel : forall j docs sent,
  1 <= j -> (Z.to_nat (N - P * j) < fuel)%nat ->
  exists k,
    j <= k /\ N <= P * k /\ (k = j \/ P * (k - 1) < N) /\
    fetch_list_loop (IA.archive items) fuel P j N docs sent =
      Some (docs ++ drop (Z.to_nat (P * j)) items,
            sent ++ map (pair P) (seqZ (j + 1) (k - j))).
Proof.
  induction fuel as [|fuel IH]; intros j docs sent Hj Hfuel; [lia|].
  cbn [fetch_list_loop]. destruct (Z.gtb_spec N (P * j)) as [Hgt | Hle].
  - destruct (IH (j + 1) (docs ++ IA.found_docs (IA.archive items P (j + 1)))
                (sent ++ [(P, j + 1)])) as (k & Hk & Hcov & Hmin & Heq).
    { lia. }
    { replace (P * (j + 1)) with (P * j + P) by ring. lia. }
    exists k. split; [lia|]. split; [lia|]. split.
    + destruct Hmin as [-> | Hmin]; [|auto].
      right. now replace (j + 1 - 1) with j by lia.
    + change (IA.numFound (IA.archive items P (j + 1))) with N. rewrite Heq.
      rewrite archive_page by lia. rewrite <- !app_assoc.
      rewrite <- (drop_page items P HP j) by lia. do 3 f_equal.
      rewrite (seqZ_cons (j + 1) (k - j)) by lia. cbn [map app].
      repeat f_equal; lia.
  - exists j. split; [lia|]. split; [lia|]. split; [auto|].
    rewrite (drop_all items P j) by (fold N; lia).
    replace (j - j) with 0 by lia. cbn. now rewrite !app_nil_r.
Qed.

End FetchList.

(** X5.  With a positive page size, [fetch_list] returns what one
    traversal of a fresh [IA] yields, all the items in ranking order, and
    sends the same requests. *)
Theorem fetch_list_agrees_with_iterator {D : Type} (items : list D) (P : Z)
    (fuel : nat) :
  0 < P -> (length items + 1 < fuel)%nat ->
  exists self' sent,
    IA.traverse (IA.archive items) fuel (IA.__init__ P 1) [] =
      Some (items, self', sent) /\
    fetch_list (IA.archive items) fuel P = Some (items, sent).
Proof.
  intros HP Hfuel.
  destruct (traverse_fresh items P fuel HP) as
    (self' & Ht & _ & _ & _ & H1 & Hcov & Hmin); [lia|].
  exists self', (map (pair P) (seqZ 1 (IA.page self'))). split; [exact Ht|].
  destruct fuel as [|fuel]; [lia|].
  unfold fetch_list. cbn [fetch_list_loop].
  replace (1 >? P * 0) with true by (symmetry; rewrite Z.gtb_ltb, Z.ltb_lt; lia).
  change (0 + 1) with 1.
  destruct (fetch_list_loop_spec items P HP fuel 1
              ([] ++ IA.found_docs (IA.archive items P 1)) ([] ++ [(P, 1)]))
    as (k & Hk & Hcov' & Hmin' & Heq).
  { lia. }
  { lia. }
  change (IA.numFound (IA.archive items P 1)) with (Z.of_nat (length items)).
  rewrite Heq. assert (k = IA.page self') as -> by nia.
  f_equal. f_equal.
  - change (IA.found_docs (IA.archive items P 1))
      with (IA.found_docs (IA.archive items P (0 + 1))).
    rewrite archive_page by lia. cbn [app].
    change (P * 1) with (P * (0 + 1)).
    rewrite <- (drop_page items P HP 0) by lia.
    now replace (Z.to_nat (P * 0)) with 0%nat by lia.
  - cbn [app]. rewrite (seqZ_cons 1 (IA.page self')) by lia. cbn [map].
    repeat f_equal; lia.
Qed.

Lemma fetch_list_agrees_with_iterator_witness :
  fetch_list (IA.archive (seq 0 120)) 122 50 =
  Some (seq 0 120, [(50, 1); (50, 2); (50, 3)]).
Proof.
  destruct (fetch_list_agrees_with_iterator (seq 0 120) 50 122)
    as (self' & sent & Ht & Hl).
  - lia.
  - rewrite length_seq. lia.
  - rewrite Hl. vm_compute in Ht. injection Ht as _ <-. reflexivity.
Defined.

Lemma fetch_list_loop_diverges {D : Type} (search : Z -> Z -> IA.response D)
    (P : Z) fuel : forall page numFound docs sent,
  P <= 0 -> (forall page, 0 < IA.numFound (search P page)) ->
  0 <= page -> 0 < numFound ->
  fetch_list_loop search fuel P page numFound docs sent = None.
Proof.
  induction fuel as [|fuel IH]; intros page numFound docs sent HP Hsrv Hpage Hn;
    [reflexivity|].
  cbn [fetch_list_loop].
  destruct (Z.gtb_spec numFound (P * page)) as [_ | Hle]; [|nia].
  apply IH; auto. lia.
Qed.

(** X6.  With a page size that is zero or negative, [fetch_list] never
    returns when the service reports a match: its loop condition
    [numFound > page_size * page] stays true. *)
Theorem fetch_list_nonpositive_page_size_diverges {D : Type}
    (search : Z -> Z -> IA.response D) (P : Z) (fuel : nat) :
  P <= 0 -> (forall page, 0 < IA.numFound (search P page)) ->
  fetch_list search fuel P = None.
Proof.
  intros HP Hsrv. unfold fetch_list. apply fetch_list_loop_diverges; auto; lia.
Qed.

Lemma fetch_list_nonpositive_page_size_diverges_witness :
  fetch_list (IA.archive [1; 2; 3]%nat) 1000 0 = None.
Proof.
  apply (fetch_list_nonpositive_page_size_diverges (IA.archive [1; 2; 3]%nat) 0 1000).
  - lia.
  - intros page. simpl. lia.
Defined.

(** X7.  [fetch_document] sends one request, for one row of page 1.  It
    raises [IndexError] exactly when the service reports a match and
    returns no document, and returns [None] exactly when the service
    reports no match; over a service that holds [items] it returns the
    first item, or [None] when there is none. *)
Theorem fetch_document_outcomes {D : Type} (search : Z -> Z -> IA.response D) :
  snd (fetch_document search) = [(1, 1)] /\
  (fst (fetch_document search) = RaisesIndexError <->
   0 < IA.numFound (search 1 1) /\ IA.found_docs (search 1 1) = []) /\
  (fst (fetch_document search) = ReturnsNone <-> IA.numFound (search 1 1) <= 0) /\
  (forall items : list D,
      fst (fetch_document (IA.archive items)) =
      match items with
      | d :: _ => ReturnsDocument d
      | [] => ReturnsNone
      end).
Proof.
  split; [reflexivity|]. unfold fetch_document. cbn [fst].
  repeat split.
  - destruct (Z.gtb_spec (IA.numFound (search 1 1)) 0); [lia | discriminate].
  - destruct (Z.gtb_spec (IA.numFound (search 1 1)) 0); [|discriminate].
    destruct (IA.found_docs (search 1 1)); [reflexivity | discriminate].
  - intros [Hn ->]. destruct (Z.gtb_spec (IA.numFound (search 1 1)) 0); [reflexivity | lia].
  - destruct (Z.gtb_spec (IA.numFound (search 1 1)) 0); [|lia].
    destruct (IA.found_docs (search 1 1)); discriminate.
  - intros Hn. destruct (Z.gtb_spec (IA.numFound (search 1 1)) 0); [lia | reflexivity].
  - intros [|d items]; reflexivity.
Qed.

(** ** [clio_id]: what it returns *)

(** X8.  An identifier that [clio_id] returns is never empty, holds only
    ASCII letters and digits, and stands in the document: in its
    [identifier], or in its [stripped_tags]. *)
Theorem clio_id_result_well_formed (doc : gmap string text) (g : text) :
  clio_id doc = Ok (Some g) ->
  g <> [] /\ Forall (fun c => is_alnum c = true) g /\
  ((exists pre post, doc !! "identifier" = Some (pre ++ g ++ post)) \/
   (exists pre post, doc !! "stripped_tags" = Some (pre ++ g ++ post))).
Proof.
  unfold clio_id. destruct (doc !! "identifier") as [identifier|] eqn:Hid;
    [|discriminate].
  destruct (CLIO_DERIVED_ID_match identifier) as [g'|] eqn:Hm; cbn.
  - intros [= ->]. apply derived_match_shape in Hm
      as (us1 & us2 & num & tl & -> & _ & _ & Hne & HF & _).
    repeat split; auto. left. exists (str "ldpd" ++ us1), (us2 ++ num ++ tl).
    now rewrite <- !app_assoc.
  - destruct (CLIO_LINK_search (default [] (doc !! "stripped_tags"))) as [g'|] eqn:Hs;
      [|discriminate].
    intros [= ->]. apply search_leftmost in Hs as (pre & tl & Htags & Hh & _).
    apply link_here_shape in Hh as (x & y & post & -> & _ & _ & Hne & HF).
    repeat split; auto. right.
    destruct (doc !! "stripped_tags") as [tags|]; cbn in Htags.
    + subst tags.
      exists (pre ++ (dquote :: str "http://clio") ++ x :: str "columbia" ++ y ::
              str "edu/catalog/"), (dquote :: post).
      f_equal. repeat first [rewrite <- app_assoc | rewrite <- app_comm_cons].
      reflexivity.
    + symmetry in Htags. apply app_eq_nil in Htags as [_ Htl]. discriminate.
Qed.

Lemma clio_id_result_well_formed_witness :
  str "1234abc" <> [] /\ Forall (fun c => is_alnum c = true) (str "1234abc").
Proof.
  destruct (clio_id_result_well_formed
              {[ "identifier" := str "ldpd_1234abc_5678" ]} (str "1234abc"))
    as (H1 & H2 & _); [reflexivity|]. split; assumption.
Defined.

(** X9.  [$] also holds before a newline that ends the identifier: a
    structured identifier followed by one newline gives the same
    segment. *)
Theorem clio_id_identifier_trailing_newline
    (doc : gmap string text) (us1 seg us2 num : text) :
  doc !! "identifier" = Some (str "ldpd" ++ us1 ++ seg ++ us2 ++ num ++ [newline]) ->
  us1 <> [] -> Forall (fun c => c = "_"%char) us1 ->
  seg <> [] -> Forall (fun c => is_alnum c = true) seg ->
  us2 <> [] -> Forall (fun c => c = "_"%char) us2 ->
  num <> [] -> Forall (fun c => is_digit c = true) num ->
  clio_id doc = Ok (Some seg).
Proof.
  intros Hid Nu1 Fu1 Ns Fs Nu2 Fu2 Nn Fn.
  apply (clio_id_structured _ _ _ Hid), derived_shape_match.
  exists us1, us2, num, [newline]. repeat split; auto.
  - eapply Forall_impl; [exact Fu1|]. now intros c ->.
  - eapply Forall_impl; [exact Fu2|]. now intros c ->.
Qed.

Lemma clio_id_identifier_trailing_newline_witness :
  clio_id {[ "identifier" := str "ldpd_1234abc_5678" ++ [newline] ]} =
  Ok (Some (str "1234abc")).
Proof.
  apply (clio_id_identifier_trailing_newline _ (str "_") (str "1234abc") (str "_")
           (str "5678")); try discriminate; try reflexivity;
    repeat constructor.
Defined.

Lemma CLIO_LINK_search_skips_unquoted pre tl :
  dquote ∉ pre -> CLIO_LINK_search (pre ++ tl) = CLIO_LINK_search tl.
Proof.
  intros Hpre. induction pre as [|c pre IH]; [reflexivity|].
  rewrite <- app_comm_cons, search_unfold, CLIO_LINK_here_no_quote.
  - apply IH. intros Hin. apply Hpre. now right.
  - intros ->. apply Hpre. now left.
Qed.

(** X10.  The two dots of the host name in [CLIO_LINK] are not escaped:
    a quoted link with any character but a newline in the place of each
    dot is taken for a catalogue link. *)
Theorem clio_id_link_dots_match_any
    (doc : gmap string text) (identifier pre id post : text) (x y : ascii) :
  doc !! "identifier" = Some identifier ->
  CLIO_DERIVED_ID_match identifier = None ->
  doc !! "stripped_tags" =
    Some (pre ++ (dquote :: str "http://clio") ++ x :: str "columbia" ++ y ::
          str "edu/catalog/" ++ id ++ dquote :: post) ->
  x <> newline -> y <> newline -> dquote ∉ pre ->
  id <> [] -> Forall (fun c => is_alnum c = true) id ->
  clio_id doc = Ok (Some id).
Proof.
  intros Hid Hm Htags Hx Hy Hpre Hne HF.
  rewrite (clio_id_fallback _ _ Hid Hm), Htags.
  match goal with
  | |- Ok (CLIO_LINK_search (default [] (Some ?t))) = _ =>
      change (default [] (Some t)) with t
  end.
  rewrite CLIO_LINK_search_skips_unquoted by assumption.
  rewrite search_unfold, (link_shape_here _ id); [reflexivity|].
  exists x, y, post. repeat split; auto.
Qed.

Lemma clio_id_link_dots_match_any_witness :
  clio_id {[ "identifier" := str "plain-item";
             "stripped_tags" :=
               str "<a href=" ++ dquote :: str "http://clio-columbia_edu/catalog/77" ++
               dquote :: str ">" ]} =
  Ok (Some (str "77")).
Proof.
  apply (clio_id_link_dots_match_any _ (str "plain-item") (str "<a href=")
           (str "77") (str ">") "-"%char "_"%char); try reflexivity;
    try discriminate.
  - compute_done.
  - repeat constructor.
Defined.

(** ** [ia_links]: the identifier can be read back *)

Lemma ia_links_thumbnail (doc links : gmap string text) :
  ia_links doc = Ok links ->
  exists ia_id,
    doc !! "identifier" = Some ia_id /\
    links !! "thumbnail" = Some (str "https://archive.org/services/img/" ++ ia_id).
Proof.
  unfold ia_links. destruct (doc !! "identifier") as [ia_id|]; [|discriminate].
  intros H. exists ia_id. split; [reflexivity|].
  apply (f_equal (fun r => match r with
                           | Ok m => m !! "thumbnail"
                           | Raise _ => None
                           end)) in H.
  rewrite <- H. apply lookup_insert_eq.
Qed.

(** X11.  Two documents with the same links have the same identifier. *)
Theorem ia_links_injective (doc1 doc2 : gmap string text) (links : gmap string text) :
  ia_links doc1 = Ok links -> ia_links doc2 = Ok links ->
  doc1 !! "identifier" = doc2 !! "identifier".
Proof.
  intros H1 H2.
  apply ia_links_thumbnail in H1 as (id1 & -> & T1).
  apply ia_links_thumbnail in H2 as (id2 & -> & T2).
  rewrite T1 in T2. injection T2 as ->. reflexivity.
Qed.

Lemma ia_links_injective_witness :
  ({[ "identifier" := str "b1"; "title" := str "Hours" ]} : gmap string text)
    !! "identifier" =
  ({[ "identifier" := str "b1" ]} : gmap string text) !! "identifier".
Proof.
  destruct (ia_links ({[ "identifier" := str "b1" ]})) as [links|] eqn:E;
    [|discriminate].
  apply (ia_links_injective _ _ links); [rewrite <- E; reflexivity | exact E].
Defined.

(** ** [fetch_clio] when the delays are not negative *)

Section FetchClioBounded.
Import Clio.
Variable catalogue : nat -> response.

Lemma fetch_clio_first depth identifier :
  fetch_clio catalogue (S depth) identifier (-1) [] =
  match marc (catalogue 0) with
  | Ok record => (Ok record, [Get identifier])
  | Raise e =>
      if caught e then
        if status_code (catalogue 0) =? 429 then
          match retry_after_header (catalogue 0) with
          | Raise e' => (Raise e', [Get identifier])
          | Ok s =>
              fetch_clio catalogue depth identifier (s + 1)
                [Get identifier; Log (RateLimiting (s + 1)); Log Headers]
          end
        else (Ok Record_new, [Get identifier; Log RetryingOnlyOnce])
      else (Raise e, [Get identifier])
  end.
Proof. reflexivity. Qed.

(** A delay that [time.sleep] does not take ends the call before the
    request. *)
Lemma fetch_clio_too_long depth identifier retry_after w :
  sleep_max < retry_after ->
  fetch_clio catalogue (S depth) identifier retry_after w = (Raise OverflowError, w).
Proof.
  intros H. cbn [fetch_clio].
  destruct (Z.eqb_spec retry_after (-1)) as [E|_]; [unfold sleep_max in H; lia|].
  now rewrite sleep_too_long.
Qed.

(** [Retry-After: 10000000000]: the pause of 10000000001 seconds does not
    fit the clock, and the call raises [OverflowError] after its one
    request, without a retry. *)
Lemma fetch_clio_retry_after_too_long identifier second :
  fetch_clio (throttle_once 10000000000 second) 1000 identifier (-1) [] =
  (Raise OverflowError,
   [Get identifier; Log (RateLimiting 10000000001); Log Headers]).
Proof. reflexivity. Qed.

Hypothesis delays_not_negative :
  forall n s, retry_after_header (catalogue n) = Ok s -> 0 <= s.

(** X12.  When no [Retry-After] the catalogue sends is negative, a call
    sends one request or two; it sends the second only after a first
    response with status 429 and a delay [s], and after one pause of
    [s + 1] seconds; with one request it takes no pause. *)
Theorem fetch_clio_one_retry_at_most depth identifier :
  let w := snd (fetch_clio catalogue (S (S depth)) identifier (-1) []) in
  (1 <= gets w <= 2)%nat /\
  (gets w = 1%nat -> sleeps w = []) /\
  (gets w = 2%nat ->
   exists s, status_code (catalogue 0) = 429 /\
             retry_after_header (catalogue 0) = Ok s /\ sleeps w = [s + 1]).
Proof.
  rewrite fetch_clio_first.
  destruct (marc (catalogue 0)) as [record|e] eqn:Hm; [cbn; repeat split; auto; lia|].
  destruct (caught e); [|cbn; repeat split; auto; lia].
  destruct (Z.eqb_spec (status_code (catalogue 0)) 429) as [Hs|_];
    [|cbn; repeat split; auto; lia].
  destruct (retry_after_header (catalogue 0)) as [s|e'] eqn:Hh;
    [|cbn; repeat split; auto; lia].
  pose proof (delays_not_negative 0%nat s Hh) as Hnn.
  destruct (Z.le_gt_cases (s + 1) sleep_max) as [Hfits | Hlong].
  - rewrite fetch_clio_delayed by lia.
    change (gets [Get identifier; Log (RateLimiting (s + 1)); Log Headers]) with 1%nat.
    destruct (marc (catalogue 1)) as [record|e2]; [|destruct (caught e2)];
      cbn; (split; [lia|]); (split; [discriminate|]); intros _; exists s; auto.
  - rewrite fetch_clio_too_long by assumption.
    cbn. repeat split; auto; lia.
Qed.

Hypothesis delays_short :
  forall n s, retry_after_header (catalogue n) = Ok s -> s < long_delay.
Hypothesis failures_caught :
  forall n e, marc (catalogue n) = Raise e -> caught e = true.
Hypothesis throttled_with_delay :
  forall n, status_code (catalogue n) = 429 ->
            exists s, retry_after_header (catalogue n) = Ok s.

(** X13.  When, besides, every [Retry-After] is under [long_delay], a
    billion seconds, so that [time.sleep] takes the pause, a response that
    does not parse fails with [ValueError] or [RecordLengthInvalid], and a
    response with status 429 carries an integer [Retry-After], a call does
    not raise: it returns the record of its first or second response, or
    the placeholder. *)
Theorem fetch_clio_returns_record depth identifier :
  exists record,
    fst (fetch_clio catalogue (S (S depth)) identifier (-1) []) = Ok record /\
    (record = Record_new \/
     marc (catalogue 0) = Ok record \/ marc (catalogue 1) = Ok record).
Proof.
  rewrite fetch_clio_first.
  destruct (marc (catalogue 0)) as [record|e] eqn:Hm; [eauto|].
  rewrite (failures_caught 0%nat e Hm).
  destruct (Z.eqb_spec (status_code (catalogue 0)) 429) as [Hs|_]; [|eauto].
  destruct (throttled_with_delay 0%nat Hs) as (s & Hh). rewrite Hh.
  pose proof (delays_not_negative 0%nat s Hh) as Hnn.
  pose proof (delays_short 0%nat s Hh) as Hshort.
  rewrite fetch_clio_delayed by (unfold long_delay, sleep_max in *; lia).
  change (gets [Get identifier; Log (RateLimiting (s + 1)); Log Headers]) with 1%nat.
  destruct (marc (catalogue 1)) as [record|e2] eqn:Hm2; [eauto|].
  rewrite (failures_caught 1%nat e2 Hm2). eauto.
Qed.

End FetchClioBounded.

Lemma fetch_clio_one_retry_at_most_witness :
  Clio.sleeps (snd (Clio.fetch_clio
                 (Clio.throttle_once 3
                    {| Clio.status_code := 429; Clio.marc := Raise ValueError;
                       Clio.retry_after_header := Ok 3 |})
                 2 (str "123") (-1) [])) = [4].
Proof.
  destruct (fetch_clio_one_retry_at_most
              (Clio.throttle_once 3
                 {| Clio.status_code := 429; Clio.marc := Raise ValueError;
                    Clio.retry_after_header := Ok 3 |})
              ltac:(intros [|n] s [= <-]; lia) 0 (str "123")) as (_ & _ & H).
  destruct H as (s & _ & Hs & ->); [reflexivity|].
  injection Hs as <-. reflexivity.
Defined.

Lemma fetch_clio_returns_record_witness :
  fst (Clio.fetch_clio
         (Clio.throttle_once 3
            {| Clio.status_code := 429; Clio.marc := Raise ValueError;
               Clio.retry_after_header := Ok 3 |})
         2 (str "123") (-1) []) = Ok Clio.Record_new.
Proof.
  destruct (fetch_clio_returns_record
              (Clio.throttle_once 3
                 {| Clio.status_code := 429; Clio.marc := Raise ValueError;
                    Clio.retry_after_header := Ok 3 |})
              ltac:(intros [|n] s [= <-]; lia)
              ltac:(intros [|n] s [= <-]; reflexivity)
              ltac:(intros [|n] e [= <-]; reflexivity)
              ltac:(intros [|n] _; exists 3; reflexivity)
              0 (str "123")) as (record & H & _).
  rewrite H. vm_compute in H. injection H as <-. reflexivity.
Defined.

(** ** [dump_iterable] on any number of documents *)

Section DumpAnyLength.
Import Dump.
Context {A : Type} (json_dumps : A -> text).

Lemma while_loop_trace (items : list A) : forall d,
  while_loop json_dumps (map Some items) (Some d) =
  flat_map (fun x => [Out (str ","); Out (json_dumps x); Next]) (d :: items).
Proof.
  induction items as [|x items IH]; intros d; cbn [map while_loop flat_map app].
  - reflexivity.
  - now rewrite IH.
Qed.

Lemma while_loop_until_None (xs : list A) (ys : list (option A)) : forall d,
  while_loop json_dumps (map Some xs ++ None :: ys) (Some d) =
  while_loop json_dumps (map Some xs) (Some d).
Proof.
  induction xs as [|x xs IH]; intros d; cbn [map while_loop app].
  - now destruct ys.
  - now rewrite IH.
Qed.

End DumpAnyLength.

(** X14.  On documents [a], [items], [dump_iterable] prints [[], [a],
    then a comma and a document for each of [items], then []]; it asks
    for each document once, after it has printed the one before, and once
    more to find the end: one call of [next] more than there are
    documents. *)
Theorem dump_iterable_trace {A : Type} (json_dumps : A -> text)
    (a : A) (items : list A) :
  Dump.dump_iterable json_dumps (map Some (a :: items)) =
    [Dump.Out (str "["); Dump.Next; Dump.Out (json_dumps a); Dump.Next] ++
    flat_map (fun x => [Dump.Out (str ","); Dump.Out (json_dumps x); Dump.Next])
             items ++
    [Dump.Out (str "]")] /\
  length (List.filter is_next (Dump.dump_iterable json_dumps (map Some (a :: items))))
    = S (length (a :: items)) /\
  length (Dump.lines (Dump.dump_iterable json_dumps (map Some (a :: items))))
    = S (2 * length (a :: items)).
Proof.
  assert (Htrace :
    Dump.dump_iterable json_dumps (map Some (a :: items)) =
    [Dump.Out (str "["); Dump.Next; Dump.Out (json_dumps a); Dump.Next] ++
    flat_map (fun x => [Dump.Out (str ","); Dump.Out (json_dumps x); Dump.Next])
             items ++
    [Dump.Out (str "]")]).
  { unfold Dump.dump_iterable. cbn [map Dump.next_or_none].
    destruct items as [|x items]; [reflexivity|].
    cbn [map Dump.next_or_none]. now rewrite while_loop_trace. }
  split; [exact Htrace|]. split.
  - rewrite Htrace. cbn [app List.filter is_next length]. do 2 f_equal.
    rewrite List.filter_app. cbn [List.filter is_next]. rewrite length_app, Nat.add_0_r.
    clear Htrace. induction items as [|x items IH]; [reflexivity|].
    cbn [flat_map app List.filter is_next length]. now rewrite IH.
  - rewrite dump_iterable_lines, !length_cons, length_app. cbn [length].
    clear Htrace. induction items as [|x items IH]; [reflexivity|].
    cbn [flat_map app length] in *. lia.
Qed.

(** X15.  An element [None] ends the output where it stands: the
    documents after it are neither asked for nor printed, and the text is
    the one for the documents before it. *)
Theorem dump_iterable_stops_at_first_None {A : Type} (json_dumps : A -> text)
    (xs : list A) (ys : list (option A)) :
  Dump.dump_iterable json_dumps (map Some xs ++ None :: ys) =
  Dump.dump_iterable json_dumps (map Some xs).
Proof.
  unfold Dump.dump_iterable. destruct xs as [|a [|b xs]]; cbn [map app Dump.next_or_none].
  - reflexivity.
  - now destruct ys.
  - now rewrite while_loop_until_None.
Qed.

(** X16.  Whatever the number of documents, when [json.dumps] gives JSON
    values the text printed is a JSON text. *)
Theorem dump_iterable_always_valid_json {A : Type} (json_dumps : A -> text)
    (items : list A) :
  (forall d, Json.value (json_dumps d)) ->
  Json.json_text (Dump.stdout (Dump.dump_iterable json_dumps (map Some items))).
Proof. intros Hvalid. now apply dump_iterable_valid_json. Qed.

Lemma dump_iterable_always_valid_json_witness :
  Json.json_text
    (Dump.stdout
       (Dump.dump_iterable (fun b : bool => if b then str "true" else str "false")
          (map Some [true; false; false; true; true]))).
Proof.
  apply (dump_iterable_always_valid_json
           (fun b : bool => if b then str "true" else str "false")).
  intros [|]; constructor.
Defined.

(** ** The commands that print a list *)

Section LazyDump.
Context {A : Type} (json_dumps : A -> text).





End LazyDump.






(** X19.  The records of [list-ebooks]: without [--clio] the links stand
    under the key [links], which replaces a field [links] of the document,
    and every other field is the document's; with [--clio] every field of
    the document is kept, a link stands under its own key only where the
    document has no field of that name, and so does the record under
    [clio]. *)
Theorem ebook_record_precedence
    (doc : gmap string text) (ia_id : text) (record : Clio.MarcRecord) :
  doc !! "identifier" = Some ia_id ->
  exists links plain with_clio,
    ia_links doc = Ok links /\
    Commands.ebook_record doc = Ok plain /\
    Commands.ebook_record_clio record doc = Ok with_clio /\
    plain !! "links" = Some (Commands.FLinks links) /\
    (forall k, k <> "links" -> plain !! k = Commands.FText <$> doc !! k) /\
    (forall k v, doc !! k = Some v -> with_clio !! k = Some (Commands.FText v)) /\
    (forall k l, doc !! k = None -> links !! k = Some l ->
                 with_clio !! k = Some (Commands.FText l)) /\
    (doc !! "clio" = None -> with_clio !! "clio" = Some (Commands.FClio record)).
Proof.
  intros Hid.
  destruct (ia_links doc) as [links|] eqn:Hlinks;
    [|unfold ia_links in Hlinks; rewrite Hid in Hlinks; discriminate].
  unfold Commands.ebook_record, Commands.ebook_record_clio. rewrite Hlinks.
  eexists links, _, _. split; [reflexivity|]. split; [reflexivity|].
  split; [reflexivity|]. repeat split.
  - apply lookup_insert_eq.
  - intros k Hk. now rewrite lookup_insert_ne, lookup_fmap.
  - intros k v Hk. apply lookup_union_Some_l, lookup_union_Some_l.
    now rewrite lookup_fmap, Hk.
  - intros k l Hk Hl. apply lookup_union_Some_l.
    rewrite lookup_union_r by now rewrite lookup_fmap, Hk.
    now rewrite lookup_fmap, Hl.
  - intros Hk. rewrite lookup_union_r; [apply lookup_singleton_eq|].
    rewrite lookup_union_r by now rewrite lookup_fmap, Hk.
    rewrite lookup_fmap. unfold ia_links in Hlinks. rewrite Hid in Hlinks.
    apply (f_equal (fun r => match r with
                             | Ok m => m !! "clio"
                             | Raise _ => None
                             end)) in Hlinks.
    rewrite <- Hlinks. reflexivity.
Qed.

Lemma ebook_record_precedence_witness :
  exists with_clio,
    Commands.ebook_record_clio Clio.Record_new
      {[ "identifier" := str "b1"; "pdf" := str "mine" ]} = Ok with_clio /\
    with_clio !! "pdf" = Some (Commands.FText (str "mine")).
Proof.
  destruct (ebook_record_precedence
              {[ "identifier" := str "b1"; "pdf" := str "mine" ]} (str "b1")
              Clio.Record_new)
    as (links & plain & with_clio & _ & _ & H & _ & _ & Hdoc & _);
    [reflexivity|].
  exists with_clio. split; [exact H|]. apply Hdoc. reflexivity.
Defined.

(** ** The parameters of the requests *)

Lemma IA_next_page_step queries page_size page :
  Params.IA_next_page (Params.query_internet_archive queries page_size page) =
  Some (Params.query_internet_archive queries page_size (page + 1)).
Proof. reflexivity. Qed.

(** X20.  The requests of the iterator carry the parameters that
    [query_internet_archive] sends: the [j]-th fetch of an [IA] built for
    [queries], [page_size] and [page] sends exactly
    [query_internet_archive(queries, page_size, page + j - 1)], so that
    [fetch_iter] and [fetch_list] ask the service the same questions. *)
Theorem IA_params_agree (queries : list (text * text)) (page_size page : Z) (j : nat) :
  Nat.iter (S j) (fun params => params ≫= Params.IA_next_page)
           (Some (Params.IA_init queries page_size page)) =
  Some (Params.query_internet_archive queries page_size (page + Z.of_nat j)).
Proof.
  induction j as [|j IH].
  - cbn [Nat.iter mbind option_bind].
    replace (page + Z.of_nat 0) with (page - 1 + 1) by lia. reflexivity.
  - rewrite Nat.iter_succ, IH. cbn [mbind option_bind].
    rewrite IA_next_page_step. do 2 f_equal. lia.
Qed.

(** ** When [fetch_clio] raises *)

Section FetchClioRaises.
Import Clio.
Variable catalogue : nat -> response.
Hypothesis delays_in_range :
  forall n s, retry_after_header (catalogue n) = Ok s -> 0 <= s < long_delay.

(** X21.  When every [Retry-After] the catalogue sends is at least zero
    and under [long_delay], a billion seconds, so that [time.sleep] takes
    the pause, a call raises [e] in three cases only: the first response
    fails to parse with [e], which is neither [ValueError] nor
    [RecordLengthInvalid]; the first response is throttled and reading its
    [Retry-After] raises [e] ([KeyError] when the header is missing); or
    the response to the retry fails to parse with such an [e]. *)
Theorem fetch_clio_raises_iff depth identifier e :
  fst (fetch_clio catalogue (S (S depth)) identifier (-1) []) = Raise e <->
  (marc (catalogue 0) = Raise e /\ caught e = false) \/
  (exists e0,
      marc (catalogue 0) = Raise e0 /\ caught e0 = true /\
      status_code (catalogue 0) = 429 /\
      retry_after_header (catalogue 0) = Raise e) \/
  (exists e0 s,
      marc (catalogue 0) = Raise e0 /\ caught e0 = true /\
      status_code (catalogue 0) = 429 /\
      retry_after_header (catalogue 0) = Ok s /\
      marc (catalogue 1) = Raise e /\ caught e = false).
Proof.
  rewrite fetch_clio_first.
  destruct (marc (catalogue 0)) as [record|e0] eqn:Hm.
  { cbn. split; [discriminate|].
    intros [[H _] | [(? & H & _) | (? & ? & H & _)]]; discriminate. }
  destruct (caught e0) eqn:Hc.
  2:{ cbn. split.
      - intros [= ->]. left. auto.
      - intros [[[= ->] _] | [(? & [= <-] & H & _) | (? & ? & [= <-] & H & _)]];
          congruence. }
  destruct (Z.eqb_spec (status_code (catalogue 0)) 429) as [Hs|Hs].
  2:{ cbn. split; [discriminate|].
      intros [[[= ->] H] | [(? & _ & _ & H & _) | (? & ? & _ & _ & H & _)]];
        congruence. }
  destruct (retry_after_header (catalogue 0)) as [s|e'] eqn:Hh.
  2:{ cbn. split.
      - intros [= ->]. right; left. eauto.
      - intros [[[= ->] H] | [(? & _ & _ & _ & [= ->]) | (? & ? & _ & _ & _ & H & _)]];
          congruence. }
  pose proof (delays_in_range 0%nat s Hh) as Hnn.
  rewrite fetch_clio_delayed by (unfold long_delay, sleep_max in *; lia).
  change (gets [Get identifier; Log (RateLimiting (s + 1)); Log Headers]) with 1%nat.
  destruct (marc (catalogue 1)) as [record|e2] eqn:Hm2.
  { cbn. split; [discriminate|].
    intros [[[= ->] H] | [(? & _ & _ & _ & H) | (? & ? & _ & _ & _ & _ & H & _)]];
      congruence. }
  destruct (caught e2) eqn:Hc2; cbn.
  - split; [discriminate|].
    intros [[[= ->] H] | [(? & _ & _ & _ & H) | (? & ? & _ & _ & _ & _ & [= ->] & H)]];
      congruence.
  - split.
    + intros [= ->]. right; right. eauto 10.
    + intros [[[= ->] H] | [(? & _ & _ & _ & H) | (? & ? & _ & _ & _ & _ & [= ->] & H)]];
        congruence.
Qed.

End FetchClioRaises.

Lemma fetch_clio_raises_iff_witness :
  fst (Clio.fetch_clio
         (Clio.throttle_once 3
            {| Clio.status_code := 200; Clio.marc := Raise OtherError;
               Clio.retry_after_header := Raise (KeyError "retry-after") |})
         2 (str "123") (-1) []) = Raise OtherError.
Proof.
  apply (fetch_clio_raises_iff
           (Clio.throttle_once 3
              {| Clio.status_code := 200; Clio.marc := Raise OtherError;
                 Clio.retry_after_header := Raise (KeyError "retry-after") |})
           ltac:(intros [|n] s [= <-]; unfold Clio.long_delay; lia)
           0 (str "123") OtherError).
  right; right. exists ValueError, 3. repeat split.
Defined.
